(** * Exact inference over a two-parent inheritance graph

    A shallow embedding of [src/probability/heredity/heredity.py]:
    [load_data] (from the rows of the file on), [powerset], the
    configuration enumeration of [main], [joint_probability], [update] and
    [normalize].

    Numbers.  The program computes with Python floats.  Every quantity is
    modelled here as an exact rational ([Q], compared with [Qeq]): the
    tables [PROBS] hold the decimal constants of the source as fractions,
    and [+], [*], [/] are the exact operations.  Rounding is therefore not
    part of the model; every equation below is an equation of exact
    arithmetic.

    Sets and dictionaries.  A Python [set] of names is a [gset name]; a
    Python [dict] is an association list in insertion order (the order in
    which [.values()] and [for name in d] visit it).  The order in which
    Python iterates over a set is not fixed by the language, so the
    development is parametric in it: [set_to_list] stands for [list(s)],
    and Section [Enumeration] assumes of it only that it lists the elements
    of the set, each once. *)

From Stdlib Require Import QArith Qfield.
From stdpp Require Import gmap strings list relations.

Local Open Scope Q_scope.
Local Open Scope string_scope.
Local Open Scope list_scope.

(** ** Data model *)

Definition name := string.

(** One row of the CSV file, as [load_data] stores it:
    [{"name": .., "mother": .. or None, "father": .. or None,
      "trait": True / False / None}]. *)
Record person := Person {
  p_name : name;
  p_mother : option name;
  p_father : option name;
  p_trait : option bool
}.

(** The dictionary [people], keyed by name, in insertion order. *)
Definition population := list (name * person).

(** The integers 0, 1, 2 that [get_genes_count] returns and that index the
    tables of [PROBS]. *)
Inductive genes := G0 | G1 | G2.

#[global] Instance genes_eq_dec : EqDecision genes.
Proof. solve_decision. Defined.

(** ** The tables [PROBS] *)

Module PROBS.

(** [PROBS["gene"]]: [{ 2: 0.01, 1: 0.03, 0: 0.96 }]. *)
Definition gene (g : genes) : Q :=
  match g with
  | G2 => 0.01
  | G1 => 0.03
  | G0 => 0.96
  end.

(** [PROBS["trait"]]:
    [2: { True: 0.65, False: 0.35 }], [1: { True: 0.56, False: 0.44 }],
    [0: { True: 0.01, False: 0.99 }]. *)
Definition trait (g : genes) (t : bool) : Q :=
  match g, t with
  | G2, true => 0.65
  | G2, false => 0.35
  | G1, true => 0.56
  | G1, false => 0.44
  | G0, true => 0.01
  | G0, false => 0.99
  end.

(** [PROBS["mutation"]]: [0.01]. *)
Definition mutation : Q := 0.01.

End PROBS.

(** ** [powerset] *)

(** [itertools.combinations(s, r)]: the [r]-element subsequences of [s], in
    lexicographic order of positions. *)
Fixpoint combinations {A} (s : list A) (r : nat) : list (list A) :=
  match r, s with
  | O, _ => [[]]
  | S _, [] => []
  | S r', x :: s' => map (cons x) (combinations s' r') ++ combinations s' r
  end.

(** The chain of [combinations(s, r) for r in range(len(s) + 1)]. *)
Definition powerset_list {A} (s : list A) : list (list A) :=
  flat_map (combinations s) (seq 0 (S (length s))).

Section Heredity.

(** [list(s)] for a set [s]: some enumeration of its elements. *)
Variable set_to_list : gset name → list name.

(** [powerset(s)]: [s = list(s)], then every combination turned back into
    a set. *)
Definition powerset (s : gset name) : list (gset name) :=
  map list_to_set (powerset_list (set_to_list s)).

(** ** [get_genes_count] and [get_pass_prob] *)

Definition get_genes_count (n : name) (one_gene two_genes : gset name) : genes :=
  if bool_decide (n ∈ one_gene) then G1
  else if bool_decide (n ∈ two_genes) then G2 else G0.

(** The same call on [person['mother']] or [person['father']], which may
    be [None]; [None] is a member of no set of names. *)
Definition get_genes_count_opt (n : option name) (one_gene two_genes : gset name) : genes :=
  match n with
  | Some n => get_genes_count n one_gene two_genes
  | None => G0
  end.

Definition get_pass_prob (count : genes) : Q :=
  match count with
  | G2 => 1 - PROBS.mutation
  | G1 => 0.5
  | G0 => PROBS.mutation
  end.

(** ** [joint_probability] *)

(** The dictionary [child_genes_probs] built inside the loop. *)
Definition child_genes_probs (m_pass_prob f_pass_prob : Q) (g : genes) : Q :=
  match g with
  | G2 => m_pass_prob * f_pass_prob
  | G1 => (m_pass_prob * (1 - f_pass_prob)) + (f_pass_prob * (1 - m_pass_prob))
  | G0 => (1 - f_pass_prob) * (1 - m_pass_prob)
  end.

(** One iteration of [for person in people.values()], from the running
    product [p] to its value at the end of the body. *)
Definition joint_step (one_gene two_genes have_trait : gset name)
    (p : Q) (entry : name * person) : Q :=
  let person := entry.2 in
  let name := p_name person in
  let genes_query := get_genes_count name one_gene two_genes in
  let trait_query := bool_decide (name ∈ have_trait) in
  let p :=
    match p_mother person with
    | Some mother =>
        let m_genes := get_genes_count mother one_gene two_genes in
        let f_genes := get_genes_count_opt (p_father person) one_gene two_genes in
        let m_pass_prob := get_pass_prob m_genes in
        let f_pass_prob := get_pass_prob f_genes in
        p * child_genes_probs m_pass_prob f_pass_prob genes_query
    | None => p * PROBS.gene genes_query
    end in
  p * PROBS.trait genes_query trait_query.

Definition joint_probability (people : population)
    (one_gene two_genes have_trait : gset name) : Q :=
  fold_left (joint_step one_gene two_genes have_trait) people 1.0.

(** The two numbers by which one iteration of the loop of
    [joint_probability] multiplies [p]: first the probability of the
    person's gene count, then the probability of the trait. *)
Definition hidden_factor (one_gene two_genes : gset name) (person : person) : Q :=
  let genes_query := get_genes_count (p_name person) one_gene two_genes in
  match p_mother person with
  | Some mother =>
      child_genes_probs
        (get_pass_prob (get_genes_count mother one_gene two_genes))
        (get_pass_prob (get_genes_count_opt (p_father person) one_gene two_genes))
        genes_query
  | None => PROBS.gene genes_query
  end.

Definition emission_factor (one_gene two_genes have_trait : gset name)
    (person : person) : Q :=
  PROBS.trait (get_genes_count (p_name person) one_gene two_genes)
              (bool_decide (p_name person ∈ have_trait)).

(** ** The loop of [main] *)

(** [d[k]] for a dictionary [d]; [None] stands for Python's [KeyError]. *)
Fixpoint dict_get {V} (d : list (name * V)) (k : name) : option V :=
  match d with
  | [] => None
  | (k', v) :: d' => if decide (k' = k) then Some v else dict_get d' k
  end.

(** [names = set(people)]: the keys of the dictionary. *)
Definition names_of (people : population) : gset name :=
  list_to_set (map fst people).

(** [fails_evidence]: some person has a known trait that differs from
    [person in have_trait].  [person] ranges over the keys of [people], so
    the lookup [people[person]] always succeeds ([dict_get_names] below);
    the [None] branch is never taken. *)
Definition fails_evidence (people : population) (names have_trait : gset name) : bool :=
  existsb
    (λ person,
       match dict_get people person with
       | Some record =>
           match p_trait record with
           | Some t => negb (Bool.eqb t (bool_decide (person ∈ have_trait)))
           | None => false
           end
       | None => false
       end)
    (set_to_list names).

(** The triples [(one_gene, two_genes, have_trait)] on which [main] calls
    [joint_probability] and [update], in the order of the three nested
    loops; a [have_trait] that fails the evidence is skipped
    ([continue]). *)
Definition enumerated (people : population) : list (gset name * gset name * gset name) :=
  let names := names_of people in
  flat_map
    (λ have_trait,
       if fails_evidence people names have_trait then []
       else
         flat_map
           (λ one_gene,
              map (λ two_genes, (one_gene, two_genes, have_trait))
                  (powerset (names ∖ one_gene)))
           (powerset names))
    (powerset names).

(** Sum of [f] over a list, for the totals the properties speak of. *)
Definition sumQ {A} (f : A → Q) (l : list A) : Q :=
  fold_right (λ a acc, f a + acc) 0 l.

(** The sum of [joint_probability] over every enumerated triple. *)
Definition total_joint_probability (people : population) : Q :=
  sumQ (λ c, joint_probability people c.1.1 c.1.2 c.2) (enumerated people).

(** ** The accumulator [probabilities] *)

(** [{ 2: _, 1: _, 0: _ }], the dictionary under ["gene"]. *)
Record gene_weights := GeneWeights { w2 : Q; w1 : Q; w0 : Q }.

(** [{ True: _, False: _ }], the dictionary under ["trait"]. *)
Record trait_weights := TraitWeights { wT : Q; wF : Q }.

(** [{ "gene": .., "trait": .. }], the entry of one person. *)
Record weights := Weights { w_gene : gene_weights; w_trait : trait_weights }.

Definition accumulator := list (name * weights).

(** The dictionary comprehension at the start of [main]: every weight of
    every person is 0. *)
Definition initial_probabilities (people : population) : accumulator :=
  map (λ entry, (entry.1, Weights (GeneWeights 0 0 0) (TraitWeights 0 0))) people.

(** [probabilities[name]['gene'][genes] += p]. *)
Definition add_gene (d : gene_weights) (g : genes) (p : Q) : gene_weights :=
  match g with
  | G2 => GeneWeights (w2 d + p) (w1 d) (w0 d)
  | G1 => GeneWeights (w2 d) (w1 d + p) (w0 d)
  | G0 => GeneWeights (w2 d) (w1 d) (w0 d + p)
  end.

(** [probabilities[name]['trait'][trait] += p]. *)
Definition add_trait (d : trait_weights) (t : bool) (p : Q) : trait_weights :=
  if t then TraitWeights (wT d + p) (wF d) else TraitWeights (wT d) (wF d + p).

(** [update]. *)
Definition update (probabilities : accumulator)
    (one_gene two_genes have_trait : gset name) (p : Q) : accumulator :=
  map
    (λ entry,
       let name := entry.1 in
       let genes := get_genes_count name one_gene two_genes in
       let trait := bool_decide (name ∈ have_trait) in
       (name,
        Weights (add_gene (w_gene entry.2) genes p)
                (add_trait (w_trait entry.2) trait p)))
    probabilities.

(** [sum(probabilities[name]['gene'].values())]: Python's [sum] starts
    from 0 and adds the values in the order of the keys 2, 1, 0. *)
Definition genes_probs_sum (d : gene_weights) : Q := 0 + w2 d + w1 d + w0 d.

(** [sum(probabilities[name]['trait'].values())]. *)
Definition trait_probs_sum (d : trait_weights) : Q := 0 + wT d + wF d.

(** Python's [/]: [ZeroDivisionError] (here [None]) on a zero divisor. *)
Definition py_div (a b : Q) : option Q :=
  if Qeq_bool b 0 then None else Some (a / b).

(** The body of the loop of [normalize] for one person: both sums are
    taken first, then the three gene weights are divided in the order
    2, 1, 0, then the two trait weights. *)
Definition normalize_entry (d : weights) : option weights :=
  let genes_probs_sum := genes_probs_sum (w_gene d) in
  let trait_probs_sum := trait_probs_sum (w_trait d) in
  g2 ← py_div (w2 (w_gene d)) genes_probs_sum;
  g1 ← py_div (w1 (w_gene d)) genes_probs_sum;
  g0 ← py_div (w0 (w_gene d)) genes_probs_sum;
  tT ← py_div (wT (w_trait d)) trait_probs_sum;
  tF ← py_div (wF (w_trait d)) trait_probs_sum;
  Some (Weights (GeneWeights g2 g1 g0) (TraitWeights tT tF)).

(** [normalize]: the entries are rewritten in dictionary order; the first
    division by zero aborts the call. *)
Fixpoint normalize (probabilities : accumulator) : option accumulator :=
  match probabilities with
  | [] => Some []
  | (name, d) :: rest =>
      d' ← normalize_entry d;
      rest' ← normalize rest;
      Some ((name, d') :: rest')
  end.

(** [main] up to the printing: accumulate over the enumerated triples,
    then normalize. *)
Definition accumulate (people : population) : accumulator :=
  fold_left
    (λ probabilities c,
       let p := joint_probability people c.1.1 c.1.2 c.2 in
       update probabilities c.1.1 c.1.2 c.2 p)
    (enumerated people) (initial_probabilities people).

Definition main (people : population) : option accumulator :=
  normalize (accumulate people).

(** ** Reference definitions, in the words of the specification *)

(** Product of [f] over a list. *)
Definition prodQ {A} (f : A → Q) (l : list A) : Q :=
  fold_right (λ a acc, f a * acc) 1 l.

(** The copy count a configuration gives a member: two copies for the
    members of the two-copies group, one copy for the members of the
    one-copy group, zero copies for everyone else. *)
Definition copy_count (one_gene two_genes : gset name) (n : name) : genes :=
  if bool_decide (n ∈ two_genes) then G2
  else if bool_decide (n ∈ one_gene) then G1 else G0.

(** The transmission model with mutation rate [ε]: an allele is passed
    with probability 1-ε by a parent with two copies, 0.5 with one copy,
    ε with zero copies. *)
Definition pass_probability (ε : Q) (g : genes) : Q :=
  match g with
  | G2 => 1 - ε
  | G1 => 0.5
  | G0 => ε
  end.

(** The copy count of a child from two independent passing events of
    probabilities [m] and [f]. *)
Definition inherit_probability (m f : Q) (g : genes) : Q :=
  match g with
  | G2 => m * f
  | G1 => m * (1 - f) + f * (1 - m)
  | G0 => (1 - m) * (1 - f)
  end.

(** The parent relation of a population: [parent] is the mother or the
    father of the member called [child]. *)
Definition parent_of (people : population) (child parent : name) : Prop :=
  ∃ k person, (k, person) ∈ people ∧ p_name person = child ∧
    (p_mother person = Some parent ∨ p_father person = Some parent).

(** No member is its own ancestor. *)
Definition acyclic (people : population) : Prop :=
  ∀ x, ¬ tc (parent_of people) x x.

(** What [load_data] builds: a dictionary (no key twice) in which every
    record is stored under its own name. *)
Definition keyed_by_name (people : population) : Prop :=
  NoDup (map fst people) ∧ ∀ k person, (k, person) ∈ people → p_name person = k.

(** Every member has no parent, or a mother and a father who both are
    members. *)
Definition zero_or_two_parents (people : population) : Prop :=
  ∀ k person, (k, person) ∈ people →
    (p_mother person = None ∧ p_father person = None) ∨
    (∃ mother father,
        p_mother person = Some mother ∧ p_father person = Some father ∧
        mother ∈ names_of people ∧ father ∈ names_of people).

Definition valid_forest (people : population) : Prop :=
  keyed_by_name people ∧ zero_or_two_parents people ∧ acyclic people.

(** Every member's trait is unknown. *)
Definition no_evidence (people : population) : Prop :=
  ∀ k person, (k, person) ∈ people → p_trait person = None.

(** ** Auxiliary definitions of the proofs *)

(** What [normalize] does to the entry of one person: each gene weight is
    divided by the sum of the gene weights, each trait weight by the sum
    of the trait weights. *)
Definition normalized_from (d d' : weights) : Prop :=
  w2 (w_gene d') == w2 (w_gene d) / (w2 (w_gene d) + w1 (w_gene d) + w0 (w_gene d)) ∧
  w1 (w_gene d') == w1 (w_gene d) / (w2 (w_gene d) + w1 (w_gene d) + w0 (w_gene d)) ∧
  w0 (w_gene d') == w0 (w_gene d) / (w2 (w_gene d) + w1 (w_gene d) + w0 (w_gene d)) ∧
  wT (w_trait d') == wT (w_trait d) / (wT (w_trait d) + wF (w_trait d)) ∧
  wF (w_trait d') == wF (w_trait d) / (wT (w_trait d) + wF (w_trait d)).

(** The sum of [F] over the configurations of the names [N]: the three
    nested loops of [main] without the evidence test. *)
Definition gene_sum (F : gset name → gset name → Q) (N : gset name) : Q :=
  sumQ (λ one_gene, sumQ (λ two_genes, F one_gene two_genes)
                         (powerset (N ∖ one_gene)))
       (powerset N).

Definition config_sum (F : gset name → gset name → gset name → Q)
    (N : gset name) : Q :=
  sumQ (λ have_trait, gene_sum (λ one_gene two_genes, F one_gene two_genes have_trait) N)
       (powerset N).

(** Nobody in the population has [x] as mother or father. *)
Definition is_leaf (people : population) (x : name) : Prop :=
  ∀ k person, (k, person) ∈ people →
    p_mother person ≠ Some x ∧ p_father person ≠ Some x.

(** A configuration of the other members, extended by gene count [g] and
    trait value [t] for [x]. *)
Definition with_one (x : name) (g : genes) (one_gene : gset name) : gset name :=
  match g with G1 => {[x]} ∪ one_gene | _ => one_gene end.

Definition with_two (x : name) (g : genes) (two_genes : gset name) : gset name :=
  match g with G2 => {[x]} ∪ two_genes | _ => two_genes end.

Definition with_trait (x : name) (t : bool) (have_trait : gset name) : gset name :=
  if t then {[x]} ∪ have_trait else have_trait.

(** The factor of the record [px] when its own gene count is [g] and its
    trait value [t], the parents being counted in [one_gene], [two_genes]. *)
Definition leaf_factor (px : person) (one_gene two_genes : gset name)
    (g : genes) (t : bool) : Q :=
  match p_mother px with
  | Some mother =>
      child_genes_probs
        (get_pass_prob (get_genes_count mother one_gene two_genes))
        (get_pass_prob (get_genes_count_opt (p_father px) one_gene two_genes))
        g
  | None => PROBS.gene g
  end * PROBS.trait g t.

(** Some member has [x] as mother or father. *)
Definition has_child (people : population) (x : name) : Prop :=
  Exists (λ entry, p_mother entry.2 = Some x ∨ p_father entry.2 = Some x) people.

#[local] Instance has_child_dec people x : Decision (has_child people x).
Proof. unfold has_child. apply _. Defined.

End Heredity.

(** ** Concrete populations *)

(** The family of the course's [family0.csv], without the evidence. *)
Definition family : population :=
  [ ("Harry", Person "Harry" (Some "Lily") (Some "James") None);
    ("James", Person "James" None None None);
    ("Lily", Person "Lily" None None None) ].

(** The family of the course's [family0.csv]: James is known to have the
    trait, Lily is known not to have it. *)
Definition family0 : population :=
  [ ("Harry", Person "Harry" (Some "Lily") (Some "James") None);
    ("James", Person "James" None None (Some true));
    ("Lily", Person "Lily" None None (Some false)) ].

(** The one-member population of the specification's scenario. *)
Definition single : population := [ ("A", Person "A" None None None) ].

(** ** [load_data] *)

(** One row as [csv.DictReader] yields it for a file with the columns
    [name], [mother], [father], [trait]: four strings, empty where the cell
    is blank. *)
Record row := Row {
  row_name : string;
  row_mother : string;
  row_father : string;
  row_trait : string
}.

(** [d[k] = v]: an existing key keeps its place and gets the new value, a
    new key goes to the end. *)
Fixpoint dict_set {V} (d : list (name * V)) (k : name) (v : V) : list (name * V) :=
  match d with
  | [] => [(k, v)]
  | (k', v') :: d' =>
      if decide (k' = k) then (k, v) :: d' else (k', v') :: dict_set d' k v
  end.

(** [s or None] for a string [s]. *)
Definition or_None (s : string) : option string :=
  if decide (s = "") then None else Some s.

(** [True if row["trait"] == "1" else False if row["trait"] == "0" else None]. *)
Definition trait_of_cell (s : string) : option bool :=
  if decide (s = "1") then Some true
  else if decide (s = "0") then Some false else None.

(** The record built for one row. *)
Definition record_of_row (r : row) : person :=
  Person (row_name r) (or_None (row_mother r)) (or_None (row_father r))
         (trait_of_cell (row_trait r)).

(** The body of [for row in reader]. *)
Definition load_row (data : population) (r : row) : population :=
  let name := row_name r in
  dict_set data name (record_of_row r).

(** [load_data], from the rows of the file on. *)
Definition load_data (rows : list row) : population :=
  fold_left load_row rows [].

(** Two entries of the accumulator hold the same five numbers. *)
Definition same_weights (d d' : weights) : Prop :=
  w2 (w_gene d') == w2 (w_gene d) ∧ w1 (w_gene d') == w1 (w_gene d) ∧
  w0 (w_gene d') == w0 (w_gene d) ∧
  wT (w_trait d') == wT (w_trait d) ∧ wF (w_trait d') == wF (w_trait d).

(** A set [have_trait] agrees with the evidence: whoever has a known trait
    is in the set exactly when that trait is [True]. *)
Definition respects_evidence (people : population) (have_trait : gset name) : Prop :=
  ∀ k record t,
    dict_get people k = Some record → p_trait record = Some t →
    bool_decide (k ∈ have_trait) = t.

(** The persons whose trait is known to be [True]. *)
Definition known_to_have_trait (people : population) : gset name :=
  filter (λ k, dict_get people k ≫= p_trait = Some true) (names_of people).

(** The weight an entry of the accumulator gives to the trait value [t]. *)
Definition trait_weight (d : weights) (t : bool) : Q :=
  if t then wT (w_trait d) else wF (w_trait d).

(** 1 when [P] holds, 0 otherwise. *)
Definition indicator (P : Prop) `{!Decision P} : Q := if decide P then 1 else 0.

(** The weight an entry of the accumulator gives to the gene count [g]. *)
Definition gene_weight (d : weights) (g : genes) : Q :=
  match g with
  | G2 => w2 (w_gene d)
  | G1 => w1 (w_gene d)
  | G0 => w0 (w_gene d)
  end.

(** [F] times a weight [φ] of the gene count and the trait value that the
    configuration gives to the person [r]. *)
Definition weighted (φ : genes → bool → Q) (r : name)
    (F : gset name → gset name → gset name → Q)
    (one_gene two_genes have_trait : gset name) : Q :=
  φ (get_genes_count r one_gene two_genes) (bool_decide (r ∈ have_trait))
  * F one_gene two_genes have_trait.

(** The mean of [φ] for a person without parents: gene count drawn from
    [PROBS["gene"]], trait from [PROBS["trait"]] given the gene count. *)
Definition prior_mean (φ : genes → bool → Q) : Q :=
  (φ G1 true * (PROBS.gene G1 * PROBS.trait G1 true)
   + φ G2 true * (PROBS.gene G2 * PROBS.trait G2 true)
   + φ G0 true * (PROBS.gene G0 * PROBS.trait G0 true))
  + (φ G1 false * (PROBS.gene G1 * PROBS.trait G1 false)
     + φ G2 false * (PROBS.gene G2 * PROBS.trait G2 false)
     + φ G0 false * (PROBS.gene G0 * PROBS.trait G0 false)).

(** Case analysis on a member of a population written out in full: [tac]
    is run on every entry. *)
Ltac each_member Hin tac :=
  repeat (apply elem_of_cons in Hin as [Hin|Hin];
          [injection Hin as -> ->; tac|]);
  by apply elem_of_nil in Hin.

(** ** [normalize] *)

Lemma py_div_nonzero a b : ¬ b == 0 → py_div a b = Some (a / b).
Proof.
  intros Hb. unfold py_div.
  destruct (Qeq_bool b 0) eqn:E; [|done].
  apply Qeq_bool_iff in E. contradiction.
Qed.

Lemma normalize_entry_nonzero d :
  ¬ genes_probs_sum (w_gene d) == 0 → ¬ trait_probs_sum (w_trait d) == 0 →
  normalize_entry d =
    Some (Weights
            (GeneWeights (w2 (w_gene d) / genes_probs_sum (w_gene d))
                         (w1 (w_gene d) / genes_probs_sum (w_gene d))
                         (w0 (w_gene d) / genes_probs_sum (w_gene d)))
            (TraitWeights (wT (w_trait d) / trait_probs_sum (w_trait d))
                          (wF (w_trait d) / trait_probs_sum (w_trait d)))).
Proof.
  intros Hg Ht. unfold normalize_entry.
  rewrite !(py_div_nonzero _ _ Hg), !(py_div_nonzero _ _ Ht). reflexivity.
Qed.

Lemma normalize_entry_spec d :
  ¬ w2 (w_gene d) + w1 (w_gene d) + w0 (w_gene d) == 0 →
  ¬ wT (w_trait d) + wF (w_trait d) == 0 →
  ∃ d', normalize_entry d = Some d' ∧ normalized_from d d' ∧
    w2 (w_gene d') + w1 (w_gene d') + w0 (w_gene d') == 1 ∧
    wT (w_trait d') + wF (w_trait d') == 1.
Proof.
  intros Hg Ht.
  assert (Hg' : ¬ genes_probs_sum (w_gene d) == 0).
  { unfold genes_probs_sum. intros E. apply Hg. rewrite <- E. ring. }
  assert (Ht' : ¬ trait_probs_sum (w_trait d) == 0).
  { unfold trait_probs_sum. intros E. apply Ht. rewrite <- E. ring. }
  eexists. split; [apply normalize_entry_nonzero; assumption|].
  unfold normalized_from, genes_probs_sum, trait_probs_sum in *. simpl.
  repeat split; field; assumption.
Qed.

(** C3.  When every person of the accumulator has gene weights of
    nonzero sum and trait weights of nonzero sum, [normalize] returns
    (no division by zero), keeps the persons and their order, divides each
    gene weight by the gene sum and each trait weight by the trait sum of
    the same person, and in the result the three gene weights of every
    person sum to 1 and the two trait weights of every person sum to 1
    (exact arithmetic). *)
Theorem normalize_sums_to_one (probabilities : accumulator) :
  (∀ n d, (n, d) ∈ probabilities →
     ¬ w2 (w_gene d) + w1 (w_gene d) + w0 (w_gene d) == 0 ∧
     ¬ wT (w_trait d) + wF (w_trait d) == 0) →
  ∃ normalized,
    normalize probabilities = Some normalized ∧
    Forall2 (λ a b, a.1 = b.1 ∧ normalized_from a.2 b.2) probabilities normalized ∧
    ∀ n d, (n, d) ∈ normalized →
      w2 (w_gene d) + w1 (w_gene d) + w0 (w_gene d) == 1 ∧
      wT (w_trait d) + wF (w_trait d) == 1.
Proof.
  induction probabilities as [|[n d] rest IH]; intros Hpre.
  - exists []. split; [done|]. split; [constructor|].
    intros ? ? Hin. by apply elem_of_nil in Hin.
  - destruct (Hpre n d) as [Hg Ht]; [apply list_elem_of_here|].
    destruct (normalize_entry_spec d Hg Ht) as (d' & Hd' & Hfrom & Hsg & Hst).
    destruct IH as (rest' & Hrest & Hall & Hsums).
    { intros n0 d0 Hin. apply (Hpre n0 d0). by apply list_elem_of_further. }
    exists ((n, d') :: rest'). split; [|split].
    + simpl. rewrite Hd'. simpl. rewrite Hrest. reflexivity.
    + constructor; [split; [done|exact Hfrom]|exact Hall].
    + intros n0 d0 Hin. apply elem_of_cons in Hin as [Heq|Hin].
      * inversion Heq; subst. split; assumption.
      * by apply Hsums in Hin.
Qed.

(** ** [joint_probability] as a product *)

Lemma joint_step_factors one_gene two_genes have_trait p entry :
  joint_step one_gene two_genes have_trait p entry =
  p * hidden_factor one_gene two_genes entry.2
    * emission_factor one_gene two_genes have_trait entry.2.
Proof.
  unfold joint_step, hidden_factor, emission_factor.
  destruct (p_mother entry.2); reflexivity.
Qed.

Lemma fold_joint_step one_gene two_genes have_trait people p :
  fold_left (joint_step one_gene two_genes have_trait) people p ==
  p * prodQ (λ entry, hidden_factor one_gene two_genes entry.2
                      * emission_factor one_gene two_genes have_trait entry.2)
            people.
Proof.
  revert p. induction people as [|entry rest IH]; intros p; simpl.
  - ring.
  - rewrite IH, joint_step_factors. ring.
Qed.

Lemma joint_probability_prodQ people one_gene two_genes have_trait :
  joint_probability people one_gene two_genes have_trait ==
  prodQ (λ entry, hidden_factor one_gene two_genes entry.2
                  * emission_factor one_gene two_genes have_trait entry.2)
        people.
Proof. unfold joint_probability. rewrite fold_joint_step. ring. Qed.

Lemma get_genes_count_copy_count one_gene two_genes n :
  one_gene ## two_genes →
  get_genes_count n one_gene two_genes = copy_count one_gene two_genes n.
Proof.
  intros Hdisj. unfold get_genes_count, copy_count.
  repeat case_bool_decide; try reflexivity. set_solver.
Qed.

Lemma get_pass_prob_pass_probability g :
  get_pass_prob g == pass_probability PROBS.mutation g.
Proof. destruct g; reflexivity. Qed.

Lemma child_genes_probs_inherit m f m' f' g :
  m == m' → f == f' →
  child_genes_probs m f g == inherit_probability m' f' g.
Proof. intros Hm Hf. destruct g; simpl; rewrite Hm, Hf; ring. Qed.

(** C2.  For every population and every configuration with disjoint
    [one_gene] and [two_genes], [joint_probability] is the product over the
    members of a hidden factor times an emission factor.  For a member
    without parents the hidden factor is the prior of its copy count; for a
    member with a mother and a father it combines the two pass
    probabilities (1-ε, 0.5 or ε by the parent's copy count): m·f for two
    copies, m·(1-f)+f·(1-m) for one, (1-m)·(1-f) for none.  The emission
    factor is the table entry for the member's trait value given its copy
    count. *)
Theorem joint_probability_product (people : population)
    (one_gene two_genes have_trait : gset name) :
  one_gene ## two_genes →
  let count := copy_count one_gene two_genes in
  let ε := PROBS.mutation in
  joint_probability people one_gene two_genes have_trait ==
    prodQ (λ member, hidden_factor one_gene two_genes member.2
                     * emission_factor one_gene two_genes have_trait member.2)
          people
  ∧ (∀ person, p_mother person = None → p_father person = None →
       hidden_factor one_gene two_genes person == PROBS.gene (count (p_name person)))
  ∧ (∀ person mother father,
       p_mother person = Some mother → p_father person = Some father →
       let m := pass_probability ε (count mother) in
       let f := pass_probability ε (count father) in
       hidden_factor one_gene two_genes person ==
         match count (p_name person) with
         | G2 => m * f
         | G1 => m * (1 - f) + f * (1 - m)
         | G0 => (1 - m) * (1 - f)
         end)
  ∧ (∀ person,
       emission_factor one_gene two_genes have_trait person ==
         PROBS.trait (count (p_name person)) (bool_decide (p_name person ∈ have_trait))).
Proof.
  intros Hdisj count ε. subst count ε.
  split; [apply joint_probability_prodQ|].
  split; [|split].
  - intros person Hm _. unfold hidden_factor. rewrite Hm.
    rewrite get_genes_count_copy_count by done. reflexivity.
  - intros person mother father Hm Hf. unfold hidden_factor. rewrite Hm, Hf. simpl.
    rewrite !get_genes_count_copy_count by done.
    rewrite (child_genes_probs_inherit _ _ _ _ _
               (get_pass_prob_pass_probability _) (get_pass_prob_pass_probability _)).
    reflexivity.
  - intros person. unfold emission_factor.
    rewrite get_genes_count_copy_count by done. reflexivity.
Qed.

(** ** Sums and products over lists *)

Lemma sumQ_app {A} (f : A → Q) l1 l2 :
  sumQ f (l1 ++ l2) == sumQ f l1 + sumQ f l2.
Proof. induction l1 as [|a l1 IH]; simpl; [ring|rewrite IH; ring]. Qed.

Lemma sumQ_map {A B} (f : B → Q) (g : A → B) l :
  sumQ f (map g l) = sumQ (λ a, f (g a)) l.
Proof. induction l as [|a l IH]; simpl; [done|by rewrite IH]. Qed.

Lemma sumQ_ext {A} (f g : A → Q) l :
  (∀ a, a ∈ l → f a == g a) → sumQ f l == sumQ g l.
Proof.
  induction l as [|a l IH]; intros Hfg; simpl; [reflexivity|].
  rewrite IH, (Hfg a) by (intros; try apply Hfg; by constructor).
  reflexivity.
Qed.

Lemma sumQ_plus {A} (f g : A → Q) l :
  sumQ (λ a, f a + g a) l == sumQ f l + sumQ g l.
Proof. induction l as [|a l IH]; simpl; [ring|rewrite IH; ring]. Qed.

Lemma sumQ_flat_map {A B} (f : B → Q) (g : A → list B) l :
  sumQ f (flat_map g l) == sumQ (λ a, sumQ f (g a)) l.
Proof.
  induction l as [|a l IH]; simpl; [reflexivity|].
  rewrite sumQ_app, IH. reflexivity.
Qed.

Lemma sumQ_perm {A} (f : A → Q) l1 l2 :
  l1 ≡ₚ l2 → sumQ f l1 == sumQ f l2.
Proof.
  induction 1 as [|a l1 l2 _ IH|a b l|l1 l2 l3 _ IH1 _ IH2]; simpl.
  - reflexivity.
  - rewrite IH. reflexivity.
  - ring.
  - rewrite IH1. exact IH2.
Qed.

Lemma prodQ_app {A} (f : A → Q) l1 l2 :
  prodQ f (l1 ++ l2) == prodQ f l1 * prodQ f l2.
Proof. induction l1 as [|a l1 IH]; simpl; [ring|rewrite IH; ring]. Qed.

Lemma prodQ_ext {A} (f g : A → Q) l :
  (∀ a, a ∈ l → f a == g a) → prodQ f l == prodQ g l.
Proof.
  induction l as [|a l IH]; intros Hfg; simpl; [reflexivity|].
  rewrite IH, (Hfg a) by (intros; try apply Hfg; by constructor).
  reflexivity.
Qed.

(** ** The lists [powerset] enumerates *)

Lemma combinations_overlong {A} (s : list A) r :
  (length s < r)%nat → combinations s r = [].
Proof.
  revert r. induction s as [|x s IH]; intros [|r] Hr; simpl in *; try lia; [done|].
  rewrite !IH by lia. reflexivity.
Qed.

Lemma flat_map_app_perm {A B} (f g : A → list B) l :
  flat_map (λ a, f a ++ g a) l ≡ₚ flat_map f l ++ flat_map g l.
Proof.
  induction l as [|a l IH]; simpl; [done|].
  rewrite IH. rewrite <- !(assoc_L (++)). f_equiv.
  rewrite !(assoc_L (++)). f_equiv. apply Permutation_app_comm.
Qed.

Lemma flat_map_map_cons {A B} (f : B → B) (g : A → list B) l :
  flat_map (λ a, map f (g a)) l = map f (flat_map g l).
Proof. induction l as [|a l IH]; simpl; [done|]. by rewrite IH, map_app. Qed.

Lemma flat_map_seq_S {B} (g : nat → list B) n :
  flat_map g (seq 1 n) = flat_map (λ r, g (S r)) (seq 0 n).
Proof. rewrite <- seq_shift, flat_map_concat_map, map_map, <- flat_map_concat_map. done. Qed.

Lemma combinations_0 {A} (s : list A) : combinations s 0 = [[]].
Proof. by destruct s. Qed.

Lemma powerset_list_cons {A} (x : A) (s : list A) :
  powerset_list (x :: s) ≡ₚ map (cons x) (powerset_list s) ++ powerset_list s.
Proof.
  assert (Hlast : flat_map (λ r, combinations s (S r)) (seq 0 (S (length s)))
                  = flat_map (λ r, combinations s (S r)) (seq 0 (length s))).
  { rewrite seq_S, flat_map_app. simpl.
    rewrite combinations_overlong by lia. by rewrite !app_nil_r. }
  assert (Hfirst : powerset_list s
                   = [] :: flat_map (λ r, combinations s (S r)) (seq 0 (length s))).
  { unfold powerset_list.
    change (seq 0 (S (length s))) with (0%nat :: seq 1 (length s)).
    cbn [flat_map]. by rewrite combinations_0, flat_map_seq_S. }
  unfold powerset_list at 1.
  change (seq 0 (S (length (x :: s)))) with (0%nat :: seq 1 (S (length s))).
  cbn [flat_map]. rewrite flat_map_seq_S.
  cbn [combinations]. rewrite flat_map_app_perm, flat_map_map_cons, Hlast.
  fold (powerset_list s). rewrite Hfirst at 3.
  change ([[]] ++ ?l) with ([] :: l).
  apply Permutation_middle.
Qed.

Lemma subsets_cons (x : name) (l : list name) :
  map list_to_set (powerset_list (x :: l)) ≡ₚ@{gset name}
  map (union {[x]}) (map list_to_set (powerset_list l))
    ++ map list_to_set (powerset_list l).
Proof.
  rewrite powerset_list_cons, map_app, !map_map. reflexivity.
Qed.

Lemma subsets_perm (l1 l2 : list name) :
  l1 ≡ₚ l2 →
  map list_to_set (powerset_list l1) ≡ₚ@{gset name}
  map list_to_set (powerset_list l2).
Proof.
  induction 1 as [|x l1 l2 _ IH|x y l|l1 l2 l3 _ IH1 _ IH2].
  - reflexivity.
  - rewrite !subsets_cons, IH. reflexivity.
  - rewrite !subsets_cons, !map_app, !map_map.
    rewrite <- !(assoc_L (++)).
    apply Permutation_app.
    + erewrite map_ext; [reflexivity|]. intros T. simpl. set_solver.
    + rewrite !(assoc_L (++)). apply Permutation_app; [|done].
      apply Permutation_app_comm.
  - by rewrite IH1.
Qed.

(** ** Dictionaries *)

Lemma dict_get_Some {V} (d : list (name * V)) k v :
  dict_get d k = Some v → (k, v) ∈ d.
Proof.
  induction d as [|[k' v'] d IH]; simpl; [done|].
  case_decide; [intros [= <-]; subst; left|right; auto].
Qed.

Lemma dict_get_names (people : population) k :
  k ∈ names_of people → is_Some (dict_get people k).
Proof.
  unfold names_of. rewrite elem_of_list_to_set.
  induction people as [|[k' v'] d IH]; simpl.
  - by intros ?%elem_of_nil.
  - case_decide; [by eexists|].
    intros [?|?]%elem_of_cons; [congruence|auto].
Qed.

(** ** The factors of a configuration extended by one member *)

Lemma get_genes_count_with x g n one_gene two_genes :
  n ≠ x →
  get_genes_count n (with_one x g one_gene) (with_two x g two_genes)
  = get_genes_count n one_gene two_genes.
Proof.
  intros Hn. unfold get_genes_count.
  destruct g; simpl; repeat case_bool_decide; try reflexivity; set_solver.
Qed.

Lemma get_genes_count_opt_with x g n one_gene two_genes :
  n ≠ Some x →
  get_genes_count_opt n (with_one x g one_gene) (with_two x g two_genes)
  = get_genes_count_opt n one_gene two_genes.
Proof.
  destruct n as [n|]; simpl; [|done].
  intros Hn. apply get_genes_count_with. congruence.
Qed.

Lemma get_genes_count_self x g one_gene two_genes :
  x ∉ one_gene → x ∉ two_genes →
  get_genes_count x (with_one x g one_gene) (with_two x g two_genes) = g.
Proof.
  intros H1 H2. unfold get_genes_count.
  destruct g; simpl; repeat case_bool_decide; try reflexivity; set_solver.
Qed.

Lemma with_trait_self x t have_trait :
  x ∉ have_trait → bool_decide (x ∈ with_trait x t have_trait) = t.
Proof.
  intros Hx. destruct t; simpl; case_bool_decide; try reflexivity; set_solver.
Qed.

Lemma with_trait_other x t n have_trait :
  n ≠ x → bool_decide (n ∈ with_trait x t have_trait) = bool_decide (n ∈ have_trait).
Proof.
  intros Hn. destruct t; simpl; [|done].
  apply bool_decide_ext. set_solver.
Qed.

Lemma member_factor_with x g t person one_gene two_genes have_trait :
  p_name person ≠ x → p_mother person ≠ Some x → p_father person ≠ Some x →
  hidden_factor (with_one x g one_gene) (with_two x g two_genes) person
  * emission_factor (with_one x g one_gene) (with_two x g two_genes)
                    (with_trait x t have_trait) person
  = hidden_factor one_gene two_genes person
    * emission_factor one_gene two_genes have_trait person.
Proof.
  intros Hn Hm Hf. unfold hidden_factor, emission_factor.
  rewrite get_genes_count_with, with_trait_other by done.
  destruct (p_mother person) as [mother|]; [|done].
  rewrite get_genes_count_with, get_genes_count_opt_with by congruence.
  reflexivity.
Qed.

Lemma leaf_factor_with x g t px one_gene two_genes have_trait :
  p_name px = x → p_mother px ≠ Some x → p_father px ≠ Some x →
  x ∉ one_gene → x ∉ two_genes → x ∉ have_trait →
  hidden_factor (with_one x g one_gene) (with_two x g two_genes) px
  * emission_factor (with_one x g one_gene) (with_two x g two_genes)
                    (with_trait x t have_trait) px
  = leaf_factor px one_gene two_genes g t.
Proof.
  intros Hn Hm Hf H1 H2 Ht. unfold hidden_factor, emission_factor, leaf_factor.
  rewrite Hn, get_genes_count_self, with_trait_self by done.
  destruct (p_mother px) as [mother|]; [|done].
  rewrite get_genes_count_with, get_genes_count_opt_with by congruence.
  reflexivity.
Qed.

Lemma leaf_factor_total px one_gene two_genes :
  (leaf_factor px one_gene two_genes G1 true
   + leaf_factor px one_gene two_genes G2 true
   + leaf_factor px one_gene two_genes G0 true)
  + (leaf_factor px one_gene two_genes G1 false
     + leaf_factor px one_gene two_genes G2 false
     + leaf_factor px one_gene two_genes G0 false) == 1.
Proof.
  unfold leaf_factor. destruct (p_mother px) as [mother|].
  - generalize (get_pass_prob (get_genes_count mother one_gene two_genes)).
    generalize (get_pass_prob (get_genes_count_opt (p_father px) one_gene two_genes)).
    intros f m. simpl. ring.
  - reflexivity.
Qed.

Lemma keyed_by_name_other l1 l2 x px k person :
  keyed_by_name (l1 ++ (x, px) :: l2) → (k, person) ∈ l1 ++ l2 →
  p_name person ≠ x.
Proof.
  intros [Hnodup Hkey] Hin.
  rewrite (Hkey k person) by (rewrite elem_of_app, elem_of_cons in *; tauto).
  intros ->. rewrite map_app in Hnodup. simpl in Hnodup.
  apply NoDup_app in Hnodup as (_ & Hdisj & [Hx _]%NoDup_cons).
  apply elem_of_app in Hin as [Hin|Hin].
  - apply (Hdisj x); [|left]. apply (list_elem_of_fmap_2 fst _ _ Hin).
  - apply Hx. apply (list_elem_of_fmap_2 fst _ _ Hin).
Qed.

Lemma joint_probability_leaf l1 l2 x px g t one_gene two_genes have_trait :
  keyed_by_name (l1 ++ (x, px) :: l2) → is_leaf (l1 ++ (x, px) :: l2) x →
  x ∉ one_gene → x ∉ two_genes → x ∉ have_trait →
  joint_probability (l1 ++ (x, px) :: l2)
    (with_one x g one_gene) (with_two x g two_genes) (with_trait x t have_trait)
  == joint_probability (l1 ++ l2) one_gene two_genes have_trait
     * leaf_factor px one_gene two_genes g t.
Proof.
  intros Hkeyed Hleaf H1 H2 Ht.
  assert (Hother : ∀ entry, entry ∈ l1 ++ l2 →
    hidden_factor (with_one x g one_gene) (with_two x g two_genes) entry.2
    * emission_factor (with_one x g one_gene) (with_two x g two_genes)
                      (with_trait x t have_trait) entry.2
    == hidden_factor one_gene two_genes entry.2
       * emission_factor one_gene two_genes have_trait entry.2).
  { intros [k person] Hin. simpl.
    destruct (Hleaf k person) as [Hm Hf].
    { rewrite elem_of_app, elem_of_cons in *. tauto. }
    rewrite member_factor_with; [reflexivity| |done|done].
    eapply keyed_by_name_other; eauto. }
  destruct (Hleaf x px) as [Hm Hf].
  { rewrite elem_of_app, elem_of_cons. tauto. }
  assert (Hname : p_name px = x).
  { apply Hkeyed. rewrite elem_of_app, elem_of_cons. tauto. }
  rewrite !joint_probability_prodQ, !prodQ_app. simpl.
  rewrite (leaf_factor_with x g t px) by done.
  set (F' := λ entry : name * person,
         hidden_factor (with_one x g one_gene) (with_two x g two_genes) entry.2
         * emission_factor (with_one x g one_gene) (with_two x g two_genes)
                           (with_trait x t have_trait) entry.2) in *.
  set (F := λ entry : name * person,
         hidden_factor one_gene two_genes entry.2
         * emission_factor one_gene two_genes have_trait entry.2) in *.
  rewrite (prodQ_ext F' F l1), (prodQ_ext F' F l2).
  - ring.
  - intros entry Hin. apply Hother, elem_of_app. by right.
  - intros entry Hin. apply Hother, elem_of_app. by left.
Qed.

Lemma names_of_middle l1 l2 x px :
  names_of (l1 ++ (x, px) :: l2) = {[x]} ∪ names_of (l1 ++ l2).
Proof.
  unfold names_of. rewrite !map_app. simpl.
  rewrite !list_to_set_app_L, list_to_set_cons. set_solver.
Qed.

Lemma names_of_middle_fresh l1 l2 x px :
  NoDup (map fst (l1 ++ (x, px) :: l2)) → x ∉ names_of (l1 ++ l2).
Proof.
  unfold names_of. rewrite !map_app. simpl.
  intros (_ & Hdisj & [Hx _]%NoDup_cons)%NoDup_app.
  rewrite elem_of_list_to_set, elem_of_app. intros [Hin|Hin]; [|done].
  apply (Hdisj x Hin). left.
Qed.

(** ** A finite acyclic population has a member without children *)

Lemma not_has_child_is_leaf people x : ¬ has_child people x → is_leaf people x.
Proof.
  intros Hno k person Hin.
  split; intros Heq; apply Hno, Exists_exists; exists (k, person); auto.
Qed.

Lemma has_child_parent_of people x :
  keyed_by_name people → has_child people x →
  ∃ c, c ∈ map fst people ∧ parent_of people c x.
Proof.
  intros [_ Hkey] ([k person] & Hin & Hpar)%Exists_exists. simpl in Hpar.
  exists k. split.
  - apply (list_elem_of_fmap_2 fst _ _ Hin).
  - exists k, person. auto.
Qed.

(** Walking from parent to child never ends when every member has a child;
    within a finite population the walk then meets a name twice, which
    makes that member its own ancestor. *)
Lemma no_endless_descent people :
  keyed_by_name people → acyclic people →
  (∀ x, x ∈ map fst people → has_child people x) →
  ∀ fuel visited h,
    NoDup visited → h ∈ visited →
    (∀ y, y ∈ visited → y ∈ map fst people) →
    (∀ y, y ∈ visited → y = h ∨ tc (parent_of people) h y) →
    (length (map fst people) ≤ length visited + fuel)%nat →
    False.
Proof.
  intros Hkeyed Hacyc Hchild.
  induction fuel as [|fuel IH]; intros visited h Hnodup Hh Hsub Hanc Hlen;
    destruct (has_child_parent_of people h Hkeyed (Hchild h (Hsub h Hh)))
      as (c & Hc & Hpar);
    (destruct (decide (c ∈ visited)) as [Hin|Hnotin];
     [ destruct (Hanc c Hin) as [->|Htc];
       [ exact (Hacyc h (tc_once _ _ _ Hpar))
       | exact (Hacyc c (tc_l _ _ _ _ Hpar Htc)) ]
     | ]).
  - assert (Hle : (length (c :: visited) ≤ length (map fst people))%nat).
    { apply submseteq_length, NoDup_submseteq; [by constructor|].
      intros y [->|Hy]%elem_of_cons; auto. }
    simpl in Hle. lia.
  - apply (IH (c :: visited) c).
    + by constructor.
    + left.
    + intros y [->|Hy]%elem_of_cons; auto.
    + intros y [->|Hy]%elem_of_cons; [by left|right].
      destruct (Hanc y Hy) as [->|Htc].
      * by apply tc_once.
      * by eapply tc_l.
    + simpl. lia.
Qed.

Lemma exists_leaf people :
  keyed_by_name people → acyclic people → people ≠ [] →
  ∃ l1 x px l2, people = l1 ++ (x, px) :: l2 ∧ is_leaf people x.
Proof.
  intros Hkeyed Hacyc Hne.
  destruct (decide (Exists (λ entry, ¬ has_child people entry.1) people))
    as [Hex|Hall].
  - apply Exists_exists in Hex as ([x px] & Hin & Hno).
    apply list_elem_of_split in Hin as (l1 & l2 & ->).
    exists l1, x, px, l2. split; [done|]. by apply not_has_child_is_leaf.
  - exfalso. destruct people as [|[x px] rest]; [done|].
    apply (no_endless_descent _ Hkeyed Hacyc) with
      (fuel := length (map fst ((x, px) :: rest))) (visited := [x]) (h := x).
    + intros y Hy. apply list_elem_of_fmap in Hy as (entry & -> & Hentry).
      destruct (decide (has_child ((x, px) :: rest) entry.1)) as [|Hno]; [done|].
      exfalso. apply Hall, Exists_exists. eauto.
    + apply NoDup_singleton.
    + left.
    + intros y ->%list_elem_of_singleton. left.
    + intros y ->%list_elem_of_singleton. by left.
    + simpl. lia.
Qed.

Lemma acyclic_remove l1 l2 x px :
  acyclic (l1 ++ (x, px) :: l2) → acyclic (l1 ++ l2).
Proof.
  intros Hacyc y Htc. apply (Hacyc y).
  apply (tc_congruence id (parent_of (l1 ++ (x, px) :: l2))) in Htc; [done|].
  intros c p (k & person & Hin & Hrest). exists k, person. split; [|done].
  rewrite elem_of_app, elem_of_cons in *. tauto.
Qed.

Lemma keyed_by_name_remove l1 l2 x px :
  keyed_by_name (l1 ++ (x, px) :: l2) → keyed_by_name (l1 ++ l2).
Proof.
  intros [Hnodup Hkey]. split.
  - rewrite map_app in *. simpl in Hnodup.
    apply NoDup_app in Hnodup as (Hl1 & Hdisj & [_ Hl2]%NoDup_cons).
    apply NoDup_app. split; [done|]. split; [|done].
    intros y Hy Hy2. apply (Hdisj y Hy). by right.
  - intros k person Hin. apply Hkey.
    rewrite elem_of_app, elem_of_cons in *. tauto.
Qed.

(** ** The enumeration of [main] *)

Section Enumeration.

(** The order in which [list(s)] enumerates a set is arbitrary; all that is
    used is that it lists the elements of the set, each once. *)
Variable set_to_list : gset name → list name.
Hypothesis set_to_list_perm : ∀ s, set_to_list s ≡ₚ elements s.

Local Abbreviation powerset := (powerset set_to_list).
Local Abbreviation gene_sum := (gene_sum set_to_list).
Local Abbreviation config_sum := (config_sum set_to_list).
Local Abbreviation fails_evidence := (fails_evidence set_to_list).
Local Abbreviation enumerated := (enumerated set_to_list).
Local Abbreviation total_joint_probability := (total_joint_probability set_to_list).

(** ** The subsets [powerset] enumerates *)

Lemma powerset_empty : powerset ∅ = [∅].
Proof.
  unfold powerset.
  assert (set_to_list ∅ = []) as ->; [|done].
  apply Permutation_nil_r. rewrite set_to_list_perm, elements_empty. done.
Qed.

Lemma powerset_insert (x : name) (S : gset name) :
  x ∉ S →
  powerset ({[x]} ∪ S) ≡ₚ map (union {[x]}) (powerset S) ++ powerset S.
Proof.
  intros Hx. unfold powerset.
  rewrite <- subsets_cons. apply subsets_perm.
  rewrite !set_to_list_perm. by apply elements_union_singleton.
Qed.

Lemma powerset_subseteq (S T : gset name) : T ∈ powerset S → T ⊆ S.
Proof.
  revert T. induction S as [|x S Hx IH] using set_ind_L; intros T.
  - rewrite powerset_empty. intros ->%list_elem_of_singleton. done.
  - rewrite powerset_insert by done.
    rewrite elem_of_app, list_elem_of_fmap.
    intros [(T' & -> & HT')|HT]; [apply IH in HT'|apply IH in HT]; set_solver.
Qed.

Lemma sumQ_powerset_insert (f : gset name → Q) (x : name) (S : gset name) :
  x ∉ S →
  sumQ f (powerset ({[x]} ∪ S)) == sumQ (λ T, f ({[x]} ∪ T) + f T) (powerset S).
Proof.
  intros Hx. rewrite (sumQ_perm _ _ _ (powerset_insert x S Hx)).
  rewrite sumQ_app, sumQ_map, sumQ_plus. reflexivity.
Qed.

(** ** The triple sum of [main] *)

Lemma fails_evidence_no_evidence people names have_trait :
  no_evidence people → fails_evidence people names have_trait = false.
Proof.
  intros Hno. unfold fails_evidence.
  apply not_true_is_false. intros (person & _ & Hbad)%existsb_exists.
  destruct (dict_get people person) as [record|] eqn:Hget; [|done].
  apply dict_get_Some in Hget. by rewrite (Hno _ _ Hget) in Hbad.
Qed.

Lemma total_joint_probability_config_sum people :
  no_evidence people →
  total_joint_probability people ==
  config_sum (joint_probability people) (names_of people).
Proof.
  intros Hno. unfold total_joint_probability, enumerated, config_sum, gene_sum.
  rewrite sumQ_flat_map. apply sumQ_ext. intros have_trait _.
  rewrite fails_evidence_no_evidence by done.
  rewrite sumQ_flat_map. apply sumQ_ext. intros one_gene _.
  rewrite sumQ_map. reflexivity.
Qed.

Lemma gene_sum_insert (F : gset name → gset name → Q) x N :
  x ∉ N →
  gene_sum F ({[x]} ∪ N) ==
  gene_sum (λ one_gene two_genes,
              F ({[x]} ∪ one_gene) two_genes + F one_gene ({[x]} ∪ two_genes)
              + F one_gene two_genes) N.
Proof.
  intros Hx. unfold gene_sum. rewrite sumQ_powerset_insert by done.
  apply sumQ_ext. intros one_gene Hone%powerset_subseteq.
  replace (({[x]} ∪ N) ∖ ({[x]} ∪ one_gene)) with (N ∖ one_gene) by set_solver.
  replace (({[x]} ∪ N) ∖ one_gene) with ({[x]} ∪ N ∖ one_gene) by set_solver.
  rewrite (sumQ_powerset_insert _ x (N ∖ one_gene)) by set_solver.
  rewrite <- sumQ_plus. apply sumQ_ext. intros two_genes _. ring.
Qed.

Lemma config_sum_insert (F : gset name → gset name → gset name → Q) x N :
  x ∉ N →
  config_sum F ({[x]} ∪ N) ==
  config_sum (λ one_gene two_genes have_trait,
                (F ({[x]} ∪ one_gene) two_genes ({[x]} ∪ have_trait)
                 + F one_gene ({[x]} ∪ two_genes) ({[x]} ∪ have_trait)
                 + F one_gene two_genes ({[x]} ∪ have_trait))
                + (F ({[x]} ∪ one_gene) two_genes have_trait
                   + F one_gene ({[x]} ∪ two_genes) have_trait
                   + F one_gene two_genes have_trait)) N.
Proof.
  intros Hx. unfold config_sum. rewrite sumQ_powerset_insert by done.
  apply sumQ_ext. intros have_trait _.
  rewrite !gene_sum_insert by done. unfold gene_sum.
  rewrite <- sumQ_plus. apply sumQ_ext. intros one_gene _.
  rewrite <- sumQ_plus. reflexivity.
Qed.

Lemma config_sum_ext (F G : gset name → gset name → gset name → Q) N :
  (∀ one_gene two_genes have_trait,
      one_gene ⊆ N → two_genes ⊆ N → have_trait ⊆ N →
      F one_gene two_genes have_trait == G one_gene two_genes have_trait) →
  config_sum F N == config_sum G N.
Proof.
  intros HFG. unfold config_sum, gene_sum.
  apply sumQ_ext. intros have_trait Ht%powerset_subseteq.
  apply sumQ_ext. intros one_gene Ho%powerset_subseteq.
  apply sumQ_ext. intros two_genes Hw%powerset_subseteq.
  apply HFG; set_solver.
Qed.

(** ** Summing out the members one after the other *)

(** Summing the member without children out of the triple sum. *)
Lemma config_sum_leaf l1 l2 x px :
  keyed_by_name (l1 ++ (x, px) :: l2) → is_leaf (l1 ++ (x, px) :: l2) x →
  config_sum (joint_probability (l1 ++ (x, px) :: l2))
             (names_of (l1 ++ (x, px) :: l2))
  == config_sum (joint_probability (l1 ++ l2)) (names_of (l1 ++ l2)).
Proof.
  intros Hkeyed Hleaf.
  pose proof (names_of_middle_fresh l1 l2 x px (proj1 Hkeyed)) as Hx.
  rewrite names_of_middle, config_sum_insert by done.
  apply config_sum_ext. intros one_gene two_genes have_trait H1 H2 Ht.
  assert (x ∉ one_gene) by set_solver.
  assert (x ∉ two_genes) by set_solver.
  assert (x ∉ have_trait) by set_solver.
  pose proof (λ g t, joint_probability_leaf l1 l2 x px g t
                one_gene two_genes have_trait Hkeyed Hleaf) as Hjp.
  rewrite (Hjp G1 true), (Hjp G2 true), (Hjp G0 true),
          (Hjp G1 false), (Hjp G2 false), (Hjp G0 false) by done.
  rewrite <- (Qmult_1_r (joint_probability (l1 ++ l2) one_gene two_genes have_trait)) at 7.
  rewrite <- (leaf_factor_total px one_gene two_genes). ring.
Qed.

(** The triple sum of an acyclic population is 1, by summing out one
    member without children after the other. *)
Lemma config_sum_acyclic people :
  keyed_by_name people → acyclic people →
  config_sum (joint_probability people) (names_of people) == 1.
Proof.
  remember (length people) as n eqn:Hn. revert people Hn.
  induction n as [|n IH]; intros people Hn Hkeyed Hacyc.
  - destruct people; [|done].
    unfold config_sum, gene_sum, names_of. simpl.
    rewrite powerset_empty. simpl.
    replace (∅ ∖ ∅ : gset name) with (∅ : gset name) by set_solver.
    rewrite powerset_empty. simpl. reflexivity.
  - destruct (exists_leaf people Hkeyed Hacyc) as (l1 & x & px & l2 & -> & Hleaf).
    { by destruct people. }
    rewrite config_sum_leaf by done.
    apply IH.
    + rewrite length_app in *. simpl in Hn. lia.
    + by eapply keyed_by_name_remove.
    + by eapply acyclic_remove.
Qed.

(** C1.  For every population that is a valid parent forest (every member
    stored under its own name, with no parent or with a mother and a father
    who are members, and nobody its own ancestor) and has no evidence, the
    sum of [joint_probability] over all the triples [main] enumerates
    (every [have_trait], every [one_gene], every [two_genes] among the
    remaining names) is 1, in exact arithmetic. *)
Theorem total_joint_probability_one (people : population) :
  valid_forest people → no_evidence people →
  total_joint_probability people == 1.
Proof.
  intros (Hkeyed & _ & Hacyc) Hno.
  rewrite total_joint_probability_config_sum by done.
  by apply config_sum_acyclic.
Qed.

End Enumeration.

(** ** Checks on the concrete populations *)

(** A member who is its own mother and father: the parent relation has a
    cycle, and the total is not 1. *)
Example total_joint_probability_cyclic :
  total_joint_probability elements [("A", Person "A" (Some "A") (Some "A") None)]
  == 24602 # 10000.
Proof. vm_compute. reflexivity. Qed.

(** The docstring's reading of a configuration on the family: Harry has one
    copy, James two copies and the trait, Lily none. *)
Example joint_probability_family :
  joint_probability family {["Harry"]} {["James"]} {["James"]}
  == 26643247488 # 10000000000000.
Proof. vm_compute. reflexivity. Qed.

Example enumerated_family_length : length (enumerated elements family) = 216%nat.
Proof. vm_compute. reflexivity. Qed.

(** The scenario of the specification: with no evidence, the weight of
    [True] for the only member is 0.96×0.01 + 0.03×0.56 + 0.01×0.65. *)
Example accumulate_single_trait :
  ∃ d, accumulate elements single = [("A", d)] ∧ wT (w_trait d) == 329 # 10000.
Proof. eexists. split; [vm_compute; reflexivity|]. vm_compute. reflexivity. Qed.

(** An accumulator whose weights are all 0 makes [normalize] divide by
    zero. *)
Example normalize_zero :
  normalize (initial_probabilities family) = None.
Proof. vm_compute. reflexivity. Qed.

Lemma acyclic_by_rank (people : population) (rank : name → nat) :
  (∀ c p, parent_of people c p → (rank p < rank c)%nat) → acyclic people.
Proof.
  intros Hrank x Htc.
  assert (Hlt : ∀ c p, tc (parent_of people) c p → (rank p < rank c)%nat).
  { induction 1 as [c p H|c p q H _ IH]; [by apply Hrank|].
    apply Hrank in H. lia. }
  apply Hlt in Htc. lia.
Qed.

Lemma family_valid : valid_forest family.
Proof.
  split; [|split].
  - split.
    + vm_compute. repeat constructor; set_solver.
    + intros k person Hin. unfold family in Hin.
      each_member Hin ltac:(reflexivity).
  - intros k person Hin. unfold family in Hin.
    each_member Hin
      ltac:(simpl; first [by left
                         | right; exists "Lily", "James";
                           repeat split; set_solver]).
  - apply (acyclic_by_rank _ (λ n, if decide (n = "Harry") then 1%nat else 0%nat)).
    intros c p (k & person & Hin & <- & Hpar). unfold family in Hin.
    each_member Hin
      ltac:(simpl in *; destruct Hpar as [[= <-]|[= <-]]; simpl; lia).
Qed.

Lemma family_no_evidence : no_evidence family.
Proof.
  intros k person Hin. unfold family in Hin.
  each_member Hin ltac:(reflexivity).
Qed.

Lemma total_joint_probability_one_witness :
  total_joint_probability elements family == 1.
Proof.
  apply (total_joint_probability_one elements).
  - intros s. reflexivity.
  - exact family_valid.
  - exact family_no_evidence.
Defined.

Lemma joint_probability_product_witness :
  joint_probability family {["Harry"]} {["James"]} {["James"]} ==
  prodQ (λ member, hidden_factor {["Harry"]} {["James"]} member.2
                   * emission_factor {["Harry"]} {["James"]} {["James"]} member.2)
        family.
Proof.
  apply (joint_probability_product family {["Harry"]} {["James"]} {["James"]}).
  apply elem_of_disjoint. intros x ->%elem_of_singleton [=]%elem_of_singleton.
Defined.

Lemma normalize_sums_to_one_witness :
  ∃ normalized,
    normalize [("A", Weights (GeneWeights (1 # 100) (3 # 100) (96 # 100))
                             (TraitWeights (329 # 10000) (9671 # 10000)))]
    = Some normalized ∧
    ∀ n d, (n, d) ∈ normalized →
      w2 (w_gene d) + w1 (w_gene d) + w0 (w_gene d) == 1 ∧
      wT (w_trait d) + wF (w_trait d) == 1.
Proof.
  destruct (normalize_sums_to_one
              [("A", Weights (GeneWeights (1 # 100) (3 # 100) (96 # 100))
                             (TraitWeights (329 # 10000) (9671 # 10000)))])
    as (normalized & Hnorm & _ & Hsums).
  - intros n d Hin%list_elem_of_singleton. injection Hin as -> ->. simpl.
    split; intros [=].
  - exists normalized. split; [exact Hnorm|exact Hsums].
Defined.

(** * Further properties of the program *)

(** ** [load_data] *)

Lemma dict_get_set {V} (d : list (name * V)) k v k' :
  dict_get (dict_set d k v) k' = if decide (k = k') then Some v else dict_get d k'.
Proof.
  induction d as [|[k0 v0] d IH]; simpl.
  - repeat case_decide; congruence.
  - destruct (decide (k0 = k)) as [->|Hne]; simpl.
    + repeat case_decide; congruence.
    + rewrite IH. repeat case_decide; congruence.
Qed.

Lemma dict_set_keys {V} (d : list (name * V)) k v x :
  x ∈ map fst (dict_set d k v) ↔ x = k ∨ x ∈ map fst d.
Proof.
  induction d as [|[k0 v0] d IH]; simpl.
  - rewrite list_elem_of_singleton, elem_of_nil. tauto.
  - destruct (decide (k0 = k)) as [->|Hne]; simpl.
    + rewrite !elem_of_cons. tauto.
    + rewrite !elem_of_cons, IH. tauto.
Qed.

Lemma dict_set_keyed_by_name (d : population) k v :
  keyed_by_name d → p_name v = k → keyed_by_name (dict_set d k v).
Proof.
  intros Hd Hv. induction d as [|[k0 v0] d IH]; simpl.
  - split; [apply NoDup_singleton|].
    by intros k' v' [= -> ->]%list_elem_of_singleton.
  - destruct Hd as [[Hk0 Hnodup]%NoDup_cons Hkey].
    assert (Hd' : keyed_by_name d).
    { split; [done|]. intros k' v' Hin. apply Hkey. by right. }
    destruct (decide (k0 = k)) as [->|Hne].
    + split; [by constructor|].
      intros k' v' [[= -> ->]|Hin]%elem_of_cons; [done|]. apply Hkey. by right.
    + destruct (IH Hd') as [Hnodup' Hkey']. split.
      * simpl. constructor; [|done]. rewrite dict_set_keys. intros [?|?]; auto.
      * intros k' v' [[= -> ->]|Hin]%elem_of_cons; [|by apply Hkey'].
        apply Hkey. left.
Qed.

Lemma load_data_snoc rows r :
  load_data (rows ++ [r]) = load_row (load_data rows) r.
Proof. unfold load_data. by rewrite fold_left_app. Qed.

(** X1.  Whatever the rows, [load_data] returns a dictionary in which no
    name occurs twice and every record is stored under its own name: the
    shape [joint_probability] relies on. *)
Theorem load_data_keyed_by_name (rows : list row) :
  keyed_by_name (load_data rows).
Proof.
  induction rows as [|r rows IH] using rev_ind.
  - split; [constructor|]. by intros k v ?%elem_of_nil.
  - rewrite load_data_snoc. by apply dict_set_keyed_by_name.
Qed.

(** X2.  The record found under a name is the one built from the last row
    of that name (a later row overwrites an earlier one), and a name that no
    row has is not a key. *)
Theorem load_data_last_row (rows : list row) (n : name) :
  dict_get (load_data rows) n
  = record_of_row <$> last (filter (λ r, row_name r = n) rows).
Proof.
  induction rows as [|r rows IH] using rev_ind; [done|].
  rewrite load_data_snoc. unfold load_row. rewrite dict_get_set, IH.
  rewrite filter_app, filter_cons, filter_nil.
  repeat case_decide; try congruence.
  - by rewrite last_snoc.
  - by rewrite app_nil_r.
Qed.

(** X3.  The keys of the loaded dictionary are exactly the names of the
    rows. *)
Theorem load_data_names (rows : list row) :
  names_of (load_data rows) = list_to_set (map row_name rows).
Proof.
  induction rows as [|r rows IH] using rev_ind; [done|].
  rewrite load_data_snoc, map_app, list_to_set_app_L, <- IH.
  apply set_eq. intros x. unfold names_of, load_row.
  rewrite elem_of_union, !elem_of_list_to_set, dict_set_keys. simpl.
  rewrite list_elem_of_singleton. tauto.
Qed.

(** ** [update] and the loop of [main] *)

Lemma add_gene_sum d g p :
  w2 (add_gene d g p) + w1 (add_gene d g p) + w0 (add_gene d g p)
  == w2 d + w1 d + w0 d + p.
Proof. destruct g; simpl; ring. Qed.

Lemma add_trait_sum d t p :
  wT (add_trait d t p) + wF (add_trait d t p) == wT d + wF d + p.
Proof. destruct t; simpl; ring. Qed.

Lemma update_entry_sums (probabilities : accumulator)
    (one_gene two_genes have_trait : gset name) (p : Q) :
  Forall2
    (λ old new,
       new.1 = old.1 ∧
       w2 (w_gene new.2) + w1 (w_gene new.2) + w0 (w_gene new.2)
         == w2 (w_gene old.2) + w1 (w_gene old.2) + w0 (w_gene old.2) + p ∧
       wT (w_trait new.2) + wF (w_trait new.2)
         == wT (w_trait old.2) + wF (w_trait old.2) + p)
    probabilities (update probabilities one_gene two_genes have_trait p).
Proof.
  induction probabilities as [|[n d] rest IH]; simpl; constructor; [|exact IH].
  simpl. split; [done|]. split; [apply add_gene_sum|apply add_trait_sum].
Qed.

(** X4.  [update] keeps the persons and their order, and raises the sum of
    the gene weights and the sum of the trait weights of every person by
    exactly [p]: the joint probability is credited once to each of the two
    distributions. *)
Theorem update_adds_once (probabilities : accumulator)
    (one_gene two_genes have_trait : gset name) (p : Q) :
  Forall2
    (λ old new,
       new.1 = old.1 ∧
       w2 (w_gene new.2) + w1 (w_gene new.2) + w0 (w_gene new.2)
         == w2 (w_gene old.2) + w1 (w_gene old.2) + w0 (w_gene old.2) + p ∧
       wT (w_trait new.2) + wF (w_trait new.2)
         == wT (w_trait old.2) + wF (w_trait old.2) + p)
    probabilities (update probabilities one_gene two_genes have_trait p).
Proof. exact (update_entry_sums probabilities one_gene two_genes have_trait p). Qed.

Lemma update_keys probabilities one_gene two_genes have_trait p :
  map fst (update probabilities one_gene two_genes have_trait p)
  = map fst probabilities.
Proof. unfold update. rewrite map_map. by apply map_ext. Qed.

Lemma fold_update_sums (f : gset name * gset name * gset name → Q) configs
    (probabilities : accumulator) (total : Q) :
  (∀ n d, (n, d) ∈ probabilities →
     w2 (w_gene d) + w1 (w_gene d) + w0 (w_gene d) == total ∧
     wT (w_trait d) + wF (w_trait d) == total) →
  ∀ n d,
    (n, d) ∈ fold_left (λ acc c, update acc c.1.1 c.1.2 c.2 (f c))
                       configs probabilities →
    w2 (w_gene d) + w1 (w_gene d) + w0 (w_gene d) == total + sumQ f configs ∧
    wT (w_trait d) + wF (w_trait d) == total + sumQ f configs.
Proof.
  revert probabilities total.
  induction configs as [|c configs IH]; intros probabilities total Hinv n d; simpl.
  - intros Hin. destruct (Hinv n d Hin) as [-> ->]. split; ring.
  - intros Hin. apply IH with (total := total + f c) in Hin.
    + destruct Hin as [-> ->]. split; ring.
    + clear n d Hin. intros n d Hin.
      pose proof (update_entry_sums probabilities c.1.1 c.1.2 c.2 (f c)) as Hall.
      apply list_elem_of_lookup in Hin as [i Hi].
      destruct (Forall2_lookup_r _ _ _ _ _ Hall Hi) as ([n0 d0] & Hi0 & _ & Hg & Ht).
      simpl in *. apply list_elem_of_lookup_2 in Hi0.
      destruct (Hinv n0 d0 Hi0) as [Hg0 Ht0].
      rewrite Hg, Ht, Hg0, Ht0. split; reflexivity.
Qed.

Lemma fold_update_keys (f : gset name * gset name * gset name → Q) configs
    (probabilities : accumulator) :
  map fst (fold_left (λ acc c, update acc c.1.1 c.1.2 c.2 (f c))
                     configs probabilities)
  = map fst probabilities.
Proof.
  revert probabilities. induction configs as [|c configs IH]; intros acc; simpl.
  - done.
  - by rewrite IH, update_keys.
Qed.

Lemma accumulate_entry_sums (set_to_list : gset name → list name)
    (people : population) :
  map fst (accumulate set_to_list people) = map fst people ∧
  ∀ n d, (n, d) ∈ accumulate set_to_list people →
    w2 (w_gene d) + w1 (w_gene d) + w0 (w_gene d)
      == total_joint_probability set_to_list people ∧
    wT (w_trait d) + wF (w_trait d)
      == total_joint_probability set_to_list people.
Proof.
  unfold accumulate, total_joint_probability. split.
  - rewrite (fold_update_keys
               (λ c, joint_probability people c.1.1 c.1.2 c.2)).
    unfold initial_probabilities. rewrite map_map. by apply map_ext.
  - intros n d Hin.
    apply (fold_update_sums
             (λ c, joint_probability people c.1.1 c.1.2 c.2) _ _ 0) in Hin.
    + destruct Hin as [-> ->]. split; ring.
    + clear. intros n d (entry & [= -> ->] & _)%list_elem_of_fmap. simpl.
      split; ring.
Qed.

(** X5.  When the loop of [main] is over, the accumulator has the persons of
    [people] in their order, and for every one of them the three gene
    weights and the two trait weights both add up to the sum of
    [joint_probability] over the enumerated triples. *)
Theorem accumulate_sums (set_to_list : gset name → list name)
    (people : population) :
  map fst (accumulate set_to_list people) = map fst people ∧
  ∀ n d, (n, d) ∈ accumulate set_to_list people →
    w2 (w_gene d) + w1 (w_gene d) + w0 (w_gene d)
      == total_joint_probability set_to_list people ∧
    wT (w_trait d) + wF (w_trait d)
      == total_joint_probability set_to_list people.
Proof. exact (accumulate_entry_sums set_to_list people). Qed.

(** ** Bounds on [joint_probability] *)

Lemma prodQ_bounds {A} (f : A → Q) l :
  (∀ a, a ∈ l → 0 < f a ∧ f a <= 1) → 0 < prodQ f l ∧ prodQ f l <= 1.
Proof.
  induction l as [|a l IH]; intros Hf; simpl.
  - split; [reflexivity|apply Qle_refl].
  - destruct (Hf a) as [Ha0 Ha1]; [left|].
    destruct IH as [Hl0 Hl1]; [intros; apply Hf; by right|].
    split; [by apply Qmult_lt_0_compat|].
    rewrite <- (Qmult_1_l 1).
    apply Qmult_le_compat_nonneg; split; auto using Qlt_le_weak.
Qed.

Lemma prodQ_perm {A} (f : A → Q) l1 l2 :
  l1 ≡ₚ l2 → prodQ f l1 == prodQ f l2.
Proof.
  induction 1 as [|a l1 l2 _ IH|a b l|l1 l2 l3 _ IH1 _ IH2]; simpl.
  - reflexivity.
  - rewrite IH. reflexivity.
  - ring.
  - rewrite IH1. exact IH2.
Qed.

Ltac closed_bounds :=
  split; [reflexivity|apply Qle_bool_iff; reflexivity].

Lemma hidden_factor_bounds one_gene two_genes person :
  0 < hidden_factor one_gene two_genes person ∧
  hidden_factor one_gene two_genes person <= 1.
Proof.
  unfold hidden_factor, get_genes_count_opt.
  destruct (p_mother person) as [mother|].
  - destruct (p_father person) as [father|];
      [destruct (get_genes_count father one_gene two_genes)|];
      destruct (get_genes_count mother one_gene two_genes);
      destruct (get_genes_count (p_name person) one_gene two_genes);
      closed_bounds.
  - destruct (get_genes_count (p_name person) one_gene two_genes); closed_bounds.
Qed.

Lemma emission_factor_bounds one_gene two_genes have_trait person :
  0 < emission_factor one_gene two_genes have_trait person ∧
  emission_factor one_gene two_genes have_trait person <= 1.
Proof.
  unfold emission_factor.
  destruct (get_genes_count (p_name person) one_gene two_genes);
    destruct (bool_decide (p_name person ∈ have_trait)); closed_bounds.
Qed.

Lemma joint_probability_unit (people : population)
    (one_gene two_genes have_trait : gset name) :
  0 < joint_probability people one_gene two_genes have_trait ∧
  joint_probability people one_gene two_genes have_trait <= 1.
Proof.
  rewrite joint_probability_prodQ. apply prodQ_bounds. intros entry _.
  destruct (hidden_factor_bounds one_gene two_genes entry.2) as [Hh0 Hh1].
  destruct (emission_factor_bounds one_gene two_genes have_trait entry.2)
    as [He0 He1].
  split; [by apply Qmult_lt_0_compat|].
  rewrite <- (Qmult_1_l 1).
  apply Qmult_le_compat_nonneg; split; auto using Qlt_le_weak.
Qed.


(** X7.  [joint_probability] does not depend on the order in which the
    dictionary lists the persons (exact arithmetic). *)
Theorem joint_probability_order (people people' : population)
    (one_gene two_genes have_trait : gset name) :
  people ≡ₚ people' →
  joint_probability people one_gene two_genes have_trait
  == joint_probability people' one_gene two_genes have_trait.
Proof.
  intros Hperm. rewrite !joint_probability_prodQ. by apply prodQ_perm.
Qed.

(** ** Failure and repetition of [normalize] *)

Lemma py_div_None a b : py_div a b = None ↔ b == 0.
Proof.
  unfold py_div. destruct (Qeq_bool b 0) eqn:E.
  - apply Qeq_bool_iff in E. tauto.
  - apply Qeq_bool_neq in E. split; [done|tauto].
Qed.

Lemma normalize_entry_None d :
  normalize_entry d = None ↔
  w2 (w_gene d) + w1 (w_gene d) + w0 (w_gene d) == 0 ∨
  wT (w_trait d) + wF (w_trait d) == 0.
Proof.
  assert (Hg : genes_probs_sum (w_gene d)
               == w2 (w_gene d) + w1 (w_gene d) + w0 (w_gene d))
    by (unfold genes_probs_sum; ring).
  assert (Ht : trait_probs_sum (w_trait d) == wT (w_trait d) + wF (w_trait d))
    by (unfold trait_probs_sum; ring).
  rewrite <- Hg, <- Ht. clear Hg Ht. unfold normalize_entry, py_div.
  destruct (Qeq_bool (genes_probs_sum (w_gene d)) 0) eqn:Eg; simpl.
  - apply Qeq_bool_iff in Eg. split; [intros _; by left|reflexivity].
  - apply Qeq_bool_neq in Eg.
    destruct (Qeq_bool (trait_probs_sum (w_trait d)) 0) eqn:Et; simpl.
    + apply Qeq_bool_iff in Et. split; [intros _; by right|reflexivity].
    + apply Qeq_bool_neq in Et.
      split; [discriminate|intros [?|?]; contradiction].
Qed.

Lemma normalize_None_iff (probabilities : accumulator) :
  normalize probabilities = None ↔
  ∃ n d, (n, d) ∈ probabilities ∧
    (w2 (w_gene d) + w1 (w_gene d) + w0 (w_gene d) == 0 ∨
     wT (w_trait d) + wF (w_trait d) == 0).
Proof.
  induction probabilities as [|[n d] rest IH]; simpl.
  - split; [done|]. by intros (? & ? & ?%elem_of_nil & _).
  - destruct (normalize_entry d) as [d'|] eqn:Hd; simpl.
    + assert (Hok : ¬ (w2 (w_gene d) + w1 (w_gene d) + w0 (w_gene d) == 0 ∨
                       wT (w_trait d) + wF (w_trait d) == 0)).
      { rewrite <- normalize_entry_None, Hd. done. }
      destruct (normalize rest) as [rest'|]; simpl.
      * split; [done|]. intros (n0 & d0 & [[= -> ->]|Hin]%elem_of_cons & Hz).
        -- contradiction.
        -- assert (Some rest' = None) as [=]. apply (proj2 IH). eauto.
      * split; [|done]. intros _.
        destruct (proj1 IH eq_refl) as (n0 & d0 & Hin & Hz).
        exists n0, d0. split; [by right|done].
    + split; [|done]. intros _. exists n, d. split; [left|].
      by apply normalize_entry_None.
Qed.

(** X8.  [normalize] fails with a division by zero exactly when the gene
    weights or the trait weights of some person add up to 0; otherwise it
    returns. *)
Theorem normalize_fails_iff (probabilities : accumulator) :
  normalize probabilities = None ↔
  ∃ n d, (n, d) ∈ probabilities ∧
    (w2 (w_gene d) + w1 (w_gene d) + w0 (w_gene d) == 0 ∨
     wT (w_trait d) + wF (w_trait d) == 0).
Proof. exact (normalize_None_iff probabilities). Qed.

Lemma normalize_Some_inv probabilities normalized :
  normalize probabilities = Some normalized →
  Forall2 (λ a b, a.1 = b.1 ∧ normalize_entry a.2 = Some b.2)
          probabilities normalized.
Proof.
  revert normalized.
  induction probabilities as [|[n d] rest IH]; intros normalized; simpl.
  - intros [= <-]. constructor.
  - destruct (normalize_entry d) as [d'|] eqn:Hd; simpl; [|done].
    destruct (normalize rest) as [rest'|]; simpl; [|done].
    intros [= <-]. constructor; [done|by apply IH].
Qed.

Lemma normalize_entry_sums d d' :
  normalize_entry d = Some d' →
  w2 (w_gene d') + w1 (w_gene d') + w0 (w_gene d') == 1 ∧
  wT (w_trait d') + wF (w_trait d') == 1.
Proof.
  intros Hd.
  assert (Hok : ¬ (w2 (w_gene d) + w1 (w_gene d) + w0 (w_gene d) == 0 ∨
                   wT (w_trait d) + wF (w_trait d) == 0)).
  { rewrite <- normalize_entry_None, Hd. done. }
  destruct (normalize_entry_spec d) as (d0 & Hd0 & _ & Hsums); [tauto..|].
  rewrite Hd in Hd0. injection Hd0 as <-. exact Hsums.
Qed.

Lemma normalize_entry_fixed d :
  w2 (w_gene d) + w1 (w_gene d) + w0 (w_gene d) == 1 →
  wT (w_trait d) + wF (w_trait d) == 1 →
  ∃ d', normalize_entry d = Some d' ∧ same_weights d d'.
Proof.
  intros Hg Ht.
  destruct (normalize_entry_spec d) as (d' & Hd' & Hfrom & _).
  { rewrite Hg. discriminate. }
  { rewrite Ht. discriminate. }
  exists d'. split; [done|].
  destruct Hfrom as (H2 & H1 & H0 & HT & HF).
  rewrite Hg in H2, H1, H0. rewrite Ht in HT, HF.
  unfold same_weights. rewrite H2, H1, H0, HT, HF.
  repeat split; field.
Qed.

(** X9.  Running [normalize] on its own result succeeds and changes no
    weight: a second normalization is harmless (exact arithmetic). *)
Theorem normalize_twice (probabilities normalized : accumulator) :
  normalize probabilities = Some normalized →
  ∃ again,
    normalize normalized = Some again ∧
    Forall2 (λ a b, a.1 = b.1 ∧ same_weights a.2 b.2) normalized again.
Proof.
  intros Hnorm%normalize_Some_inv.
  induction Hnorm as [|[n d] [n' d'] rest rest' [_ Hd] _ IH]; simpl in *.
  - exists []. split; [done|constructor].
  - destruct (normalize_entry_sums _ _ Hd) as [Hg Ht].
    destruct (normalize_entry_fixed d' Hg Ht) as (d'' & Hd'' & Hsame).
    destruct IH as (again & Hagain & Hall).
    exists ((n', d'') :: again). rewrite Hd''. simpl. rewrite Hagain. simpl.
    split; [done|]. constructor; [by split|done].
Qed.

(** ** What [combinations] and [powerset] enumerate *)

(** [combinations(s, r)] yields exactly the subsequences of [s] that
    have [r] elements; in particular it yields nothing when [r] exceeds the
    length of [s]. *)
Lemma combinations_sublists {A} (s l : list A) (r : nat) :
  l ∈ combinations s r ↔ sublist l s ∧ length l = r.
Proof.
  revert l r. induction s as [|x s IH]; intros l r.
  - rewrite sublist_nil_r. destruct r; simpl.
    + rewrite list_elem_of_singleton. split; [by intros ->|tauto].
    + rewrite elem_of_nil. split; [done|]. by intros [-> ?].
  - destruct r as [|r]; cbn [combinations].
    + rewrite list_elem_of_singleton. split.
      * intros ->. split; [apply sublist_nil_l|done].
      * intros [_ Hlen]. by destruct l.
    + rewrite elem_of_app, list_elem_of_fmap, sublist_cons_r. split.
      * intros [(l' & -> & [Hsub Hlen]%IH)|[Hsub Hlen]%IH].
        -- split; [right; eauto|simpl; lia].
        -- split; [by left|done].
      * intros [[Hsub|(l' & -> & Hsub)] Hlen].
        -- right. by apply IH.
        -- left. exists l'. split; [done|]. apply IH. simpl in Hlen.
           split; [done|lia].
Qed.

Lemma normalize_entry_Some d d' :
  normalize_entry d = Some d' →
  normalized_from d d' ∧
  w2 (w_gene d') + w1 (w_gene d') + w0 (w_gene d') == 1 ∧
  wT (w_trait d') + wF (w_trait d') == 1.
Proof.
  intros Hd.
  assert (Hok : ¬ (w2 (w_gene d) + w1 (w_gene d) + w0 (w_gene d) == 0 ∨
                   wT (w_trait d) + wF (w_trait d) == 0)).
  { rewrite <- normalize_entry_None, Hd. done. }
  destruct (normalize_entry_spec d) as (d0 & Hd0 & Hrest); [tauto..|].
  rewrite Hd in Hd0. by injection Hd0 as <-.
Qed.

Lemma normalize_fixed (probabilities : accumulator) :
  (∀ n d, (n, d) ∈ probabilities →
     w2 (w_gene d) + w1 (w_gene d) + w0 (w_gene d) == 1 ∧
     wT (w_trait d) + wF (w_trait d) == 1) →
  ∃ normalized,
    normalize probabilities = Some normalized ∧
    Forall2 (λ a b, a.1 = b.1 ∧ same_weights a.2 b.2) probabilities normalized.
Proof.
  induction probabilities as [|[n d] rest IH]; intros Hsums; simpl.
  - exists []. split; [done|constructor].
  - destruct (Hsums n d) as [Hg Ht]; [left|].
    destruct (normalize_entry_fixed d Hg Ht) as (d' & Hd' & Hsame).
    destruct IH as (rest' & Hrest & Hall).
    { intros n0 d0 Hin. apply (Hsums n0 d0). by right. }
    exists ((n, d') :: rest'). rewrite Hd'. simpl. rewrite Hrest. simpl.
    split; [done|]. constructor; [by split|done].
Qed.

Lemma Forall2_same_keys {V W} (R : V → W → Prop)
    (l : list (name * V)) (k : list (name * W)) :
  Forall2 (λ a b, a.1 = b.1 ∧ R a.2 b.2) l k → map fst l = map fst k.
Proof. induction 1 as [|a b l k [Hab _] _ IH]; simpl; congruence. Qed.

Lemma sumQ_pos {A} (f : A → Q) (l : list A) (a : A) :
  a ∈ l → (∀ b, b ∈ l → 0 < f b) → 0 < sumQ f l.
Proof.
  intros Ha Hf. assert (Hnn : ∀ k, (∀ b, b ∈ k → 0 < f b) → 0 <= sumQ f k).
  { induction k as [|b k IH]; intros Hk; simpl; [apply Qle_refl|].
    rewrite <- (Qplus_0_l 0). apply Qplus_le_compat.
    - apply Qlt_le_weak, Hk. left.
    - apply IH. intros; apply Hk. by right. }
  induction l as [|b l IH]; [by apply elem_of_nil in Ha|]. simpl.
  rewrite <- (Qplus_0_l 0). apply Qplus_lt_le_compat; [apply Hf; left|].
  apply Hnn. intros; apply Hf. by right.
Qed.

Lemma fold_update_known_trait (f : gset name * gset name * gset name → Q)
    configs (probabilities : accumulator) (k : name) (t : bool) :
  (∀ c, c ∈ configs → bool_decide (k ∈ c.2) = t) →
  (∀ d, (k, d) ∈ probabilities → trait_weight d (negb t) == 0) →
  ∀ d,
    (k, d) ∈ fold_left (λ acc c, update acc c.1.1 c.1.2 c.2 (f c))
                       configs probabilities →
    trait_weight d (negb t) == 0.
Proof.
  revert probabilities.
  induction configs as [|c configs IH]; intros probabilities Hc Hinv d; simpl.
  - apply Hinv.
  - apply IH.
    + intros c' Hc'. apply Hc. by right.
    + clear d. intros d ([k0 d0] & [= -> ->] & Hin)%list_elem_of_fmap.
      simpl. rewrite (Hc c) by left.
      specialize (Hinv d0 Hin). by destruct t.
Qed.

Lemma sumQ_scale {A} (c : Q) (f : A → Q) l :
  sumQ (λ a, c * f a) l == c * sumQ f l.
Proof. induction l as [|a l IH]; simpl; [ring|rewrite IH; ring]. Qed.

Lemma gene_weight_add gw tw tw' g' g p :
  gene_weight (Weights (add_gene gw g' p) tw) g
  == gene_weight (Weights gw tw') g + indicator (g' = g) * p.
Proof.
  unfold indicator. destruct g', g; simpl; try case_decide; try congruence; ring.
Qed.

Lemma trait_weight_add gw gw' tw t' t p :
  trait_weight (Weights gw (add_trait tw t' p)) t
  == trait_weight (Weights gw' tw) t + indicator (t' = t) * p.
Proof.
  unfold indicator. destruct t', t; simpl; try case_decide; try congruence; ring.
Qed.

Lemma fold_update_slots (f : gset name * gset name * gset name → Q) configs
    (g : genes) (t : bool) :
  ∀ (probabilities : accumulator) (Sg St : name → Q),
  (∀ n d, (n, d) ∈ probabilities →
     gene_weight d g == Sg n ∧ trait_weight d t == St n) →
  ∀ n d,
    (n, d) ∈ fold_left (λ acc c, update acc c.1.1 c.1.2 c.2 (f c))
                       configs probabilities →
    gene_weight d g
      == Sg n + sumQ (λ c, indicator (get_genes_count n c.1.1 c.1.2 = g) * f c)
                     configs ∧
    trait_weight d t
      == St n + sumQ (λ c, indicator (bool_decide (n ∈ c.2) = t) * f c) configs.
Proof.
  induction configs as [|c configs IH]; intros probabilities Sg St Hinv n d; simpl.
  - intros Hin. destruct (Hinv n d Hin) as [Hg Ht]. rewrite Hg, Ht. split; ring.
  - intros Hin.
    apply (IH _ (λ n, Sg n + indicator (get_genes_count n c.1.1 c.1.2 = g) * f c)
                (λ n, St n + indicator (bool_decide (n ∈ c.2) = t) * f c))
      in Hin.
    + destruct Hin as [Hg Ht]. rewrite Hg, Ht. split; ring.
    + clear n d Hin.
      intros n d ([n0 d0] & [= -> ->] & Hin)%list_elem_of_fmap. simpl.
      destruct (Hinv n0 d0 Hin) as [Hg Ht]. destruct d0 as [gw tw].
      split.
      * rewrite <- Hg. apply gene_weight_add.
      * rewrite <- Ht. apply trait_weight_add.
Qed.

Lemma dict_get_elem_of {V} (d : list (name * V)) k v :
  NoDup (map fst d) → (k, v) ∈ d → dict_get d k = Some v.
Proof.
  induction d as [|[k0 v0] d IH]; simpl; [by intros _ ?%elem_of_nil|].
  intros [Hk0 Hnodup]%NoDup_cons [[= -> ->]|Hin]%elem_of_cons.
  - by rewrite decide_True.
  - rewrite decide_False; [by apply IH|].
    intros ->. apply Hk0. apply (list_elem_of_fmap_2 fst _ _ Hin).
Qed.

Lemma elem_of_flat_map {A B} (f : A → list B) (l : list A) (b : B) :
  b ∈ flat_map f l ↔ ∃ a, a ∈ l ∧ b ∈ f a.
Proof.
  induction l as [|a l IH]; simpl.
  - rewrite elem_of_nil. split; [done|]. by intros (? & ?%elem_of_nil & _).
  - rewrite elem_of_app, IH. split.
    + intros [Hb|(a' & Ha' & Hb)]; [exists a; split; [left|done]|].
      exists a'. split; [by right|done].
    + intros (a' & [->|Ha']%elem_of_cons & Hb); [by left|right; eauto].
Qed.

Lemma NoDup_flat_map {A B} (f : A → list B) (l : list A) :
  NoDup l → (∀ a, a ∈ l → NoDup (f a)) →
  (∀ a a' b, a ∈ l → a' ∈ l → b ∈ f a → b ∈ f a' → a = a') →
  NoDup (flat_map f l).
Proof.
  induction 1 as [|a l Ha Hl IH]; intros Hf Hdisj; simpl; [constructor|].
  apply NoDup_app. split; [apply Hf; left|]. split.
  - intros b Hb (a' & Ha' & Hb')%elem_of_flat_map.
    apply Ha. rewrite (Hdisj a a' b); [done|left|by right|done|done].
  - apply IH.
    + intros a' Ha'. apply Hf. by right.
    + intros a1 a2 b H1 H2. apply Hdisj; by right.
Qed.

Section Inference.

Variable set_to_list : gset name → list name.
Hypothesis set_to_list_perm : ∀ s, set_to_list s ≡ₚ elements s.

Local Abbreviation powerset := (powerset set_to_list).
Local Abbreviation fails_evidence := (fails_evidence set_to_list).
Local Abbreviation enumerated := (enumerated set_to_list).
Local Abbreviation total_joint_probability := (total_joint_probability set_to_list).
Local Abbreviation accumulate := (accumulate set_to_list).
Local Abbreviation main := (main set_to_list).

Lemma powerset_exactly (S : gset name) :
  NoDup (powerset S) ∧ (∀ T, T ∈ powerset S ↔ T ⊆ S) ∧
  length (powerset S) = (2 ^ size S)%nat.
Proof.
  induction S as [|x S Hx (Hnodup & Hin & Hlen)] using set_ind_L.
  - rewrite (powerset_empty set_to_list set_to_list_perm).
    split; [apply NoDup_singleton|]. split; [|by rewrite size_empty].
    intros T. rewrite list_elem_of_singleton. set_solver.
  - pose proof (powerset_insert set_to_list set_to_list_perm x S Hx) as Hperm.
    split; [|split].
    + rewrite Hperm. apply NoDup_app. split; [|split; [|done]].
      * apply (NoDup_fmap_2_strong (union {[x]})); [|done].
        intros T1 T2 H1%Hin H2%Hin Heq. set_solver.
      * intros T (T' & -> & _)%list_elem_of_fmap HT%Hin. set_solver.
    + intros T. rewrite Hperm, elem_of_app, list_elem_of_fmap. split.
      * intros [(T' & -> & HT'%Hin)|HT%Hin]; set_solver.
      * intros HT. destruct (decide (x ∈ T)) as [HxT|HxT].
        -- left. exists (T ∖ {[x]}). split.
           ++ apply set_eq. intros y. rewrite elem_of_union, elem_of_difference,
                elem_of_singleton. destruct (decide (y = x)) as [->|]; tauto.
           ++ apply Hin. set_solver.
        -- right. apply Hin. set_solver.
    + rewrite Hperm, length_app, length_map, Hlen.
      rewrite size_union, size_singleton by set_solver. simpl. lia.
Qed.

(** X10.  [powerset(s)] lists every subset of [s], each exactly once, so
    [2 ^ len(s)] sets in all. *)
Theorem powerset_all_subsets (S : gset name) :
  NoDup (powerset S) ∧ (∀ T, T ∈ powerset S ↔ T ⊆ S) ∧
  length (powerset S) = (2 ^ size S)%nat.
Proof. exact (powerset_exactly S). Qed.

Lemma elem_of_set_to_list (S : gset name) k : In k (set_to_list S) ↔ k ∈ S.
Proof. by rewrite <- list_elem_of_In, set_to_list_perm, elem_of_elements. Qed.

Lemma fails_evidence_false_iff people have_trait :
  fails_evidence people (names_of people) have_trait = false ↔
  respects_evidence people have_trait.
Proof.
  unfold fails_evidence, respects_evidence. split.
  - intros Hfalse k record t Hget Ht.
    destruct (decide (bool_decide (k ∈ have_trait) = t)) as [|Hne]; [done|].
    exfalso. apply (eq_true_false_abs _ (eq_refl true)). rewrite <- Hfalse.
    symmetry. apply existsb_exists. exists k. split.
    + apply elem_of_set_to_list. unfold names_of. rewrite elem_of_list_to_set.
      apply dict_get_Some in Hget. apply (list_elem_of_fmap_2 fst _ _ Hget).
    + rewrite Hget, Ht.
      destruct t, (bool_decide (k ∈ have_trait)); simpl; congruence.
  - intros Hok. apply not_true_is_false.
    intros (k & _ & Hbad)%existsb_exists.
    destruct (dict_get people k) as [record|] eqn:Hget; [|done].
    destruct (p_trait record) as [t|] eqn:Ht; [|done].
    rewrite (Hok k record t Hget Ht) in Hbad. by destruct t.
Qed.

Lemma elem_of_enumerated people one_gene two_genes have_trait :
  (one_gene, two_genes, have_trait) ∈ enumerated people ↔
  have_trait ⊆ names_of people ∧ respects_evidence people have_trait ∧
  one_gene ⊆ names_of people ∧ two_genes ⊆ names_of people ∧
  one_gene ## two_genes.
Proof.
  pose proof (λ S, proj1 (proj2 (powerset_exactly S))) as Hpow.
  unfold enumerated. rewrite elem_of_flat_map. split.
  - intros (ht & Hht%Hpow & Hin).
    destruct (fails_evidence people (names_of people) ht) eqn:Hev.
    { by apply elem_of_nil in Hin. }
    apply fails_evidence_false_iff in Hev.
    apply elem_of_flat_map in Hin as (og & Hog%Hpow & Hin).
    apply list_elem_of_fmap in Hin as (tg & [= -> -> ->] & Htg%Hpow).
    repeat split; [done..|set_solver|set_solver].
  - intros (Hht & Hev & Hog & Htg & Hdisj). exists have_trait.
    split; [by apply Hpow|].
    rewrite (proj2 (fails_evidence_false_iff _ _) Hev).
    apply elem_of_flat_map. exists one_gene. split; [by apply Hpow|].
    apply list_elem_of_fmap. exists two_genes. split; [done|].
    apply Hpow. set_solver.
Qed.

Lemma NoDup_enumerated people : NoDup (enumerated people).
Proof.
  pose proof (λ S, proj1 (powerset_exactly S)) as Hnodup.
  unfold enumerated. apply NoDup_flat_map; [apply Hnodup| |].
  - intros ht _. destruct (fails_evidence _ _ ht); [constructor|].
    apply NoDup_flat_map; [apply Hnodup| |].
    + intros og _. apply NoDup_fmap_2; [|apply Hnodup]. by intros ?? [= ->].
    + intros og og' c _ _ (? & -> & _)%list_elem_of_fmap
             (? & [= -> _] & _)%list_elem_of_fmap. done.
  - intros ht ht' c _ _ Hc Hc'.
    destruct (fails_evidence _ _ ht); [by apply elem_of_nil in Hc|].
    destruct (fails_evidence _ _ ht'); [by apply elem_of_nil in Hc'|].
    apply elem_of_flat_map in Hc as (? & _ & (? & -> & _)%list_elem_of_fmap).
    apply elem_of_flat_map in Hc' as (? & _ & (? & [= _ _ ->] & _)%list_elem_of_fmap).
    done.
Qed.

(** X11.  The loops of [main] visit exactly the triples in which
    [have_trait] is a set of persons that agrees with every known trait and
    [one_gene], [two_genes] are disjoint sets of persons, and visit each of
    them once. *)
Theorem enumerated_exactly (people : population) :
  NoDup (enumerated people) ∧
  ∀ one_gene two_genes have_trait,
    (one_gene, two_genes, have_trait) ∈ enumerated people ↔
    have_trait ⊆ names_of people ∧ respects_evidence people have_trait ∧
    one_gene ⊆ names_of people ∧ two_genes ⊆ names_of people ∧
    one_gene ## two_genes.
Proof. split; [apply NoDup_enumerated|apply elem_of_enumerated]. Qed.

Lemma known_to_have_trait_respects people :
  known_to_have_trait people ⊆ names_of people ∧
  respects_evidence people (known_to_have_trait people).
Proof.
  unfold known_to_have_trait. split.
  - intros k [_ Hk]%elem_of_filter. done.
  - intros k record t Hget Ht.
    assert (Hk : k ∈ names_of people).
    { unfold names_of. rewrite elem_of_list_to_set.
      apply dict_get_Some in Hget. apply (list_elem_of_fmap_2 fst _ _ Hget). }
    destruct t.
    + apply bool_decide_eq_true. apply elem_of_filter. split; [|done].
      rewrite Hget. simpl. done.
    + apply bool_decide_eq_false. intros [Hbad _]%elem_of_filter.
      rewrite Hget in Hbad. simpl in Hbad. congruence.
Qed.

Lemma total_joint_probability_pos people : 0 < total_joint_probability people.
Proof.
  destruct (known_to_have_trait_respects people) as [Hsub Hev].
  unfold total_joint_probability.
  apply (sumQ_pos _ _ (∅, ∅, known_to_have_trait people)).
  - apply elem_of_enumerated. repeat split; [done..|set_solver|set_solver|set_solver].
  - intros c _. apply joint_probability_unit.
Qed.

Lemma main_Some people :
  ∃ normalized,
    main people = Some normalized ∧
    Forall2 (λ a b, a.1 = b.1 ∧ normalize_entry a.2 = Some b.2)
            (accumulate people) normalized.
Proof.
  unfold main. destruct (normalize (accumulate people)) as [out|] eqn:Hnorm.
  - exists out. split; [done|]. by apply normalize_Some_inv.
  - exfalso. apply normalize_None_iff in Hnorm as (n & d & Hin & Hzero).
    destruct (proj2 (accumulate_entry_sums set_to_list people) n d Hin)
      as [Hg Ht].
    pose proof (total_joint_probability_pos people) as Hpos.
    destruct Hzero as [Hz|Hz]; [rewrite Hg in Hz|rewrite Ht in Hz];
      rewrite Hz in Hpos; discriminate.
Qed.


(** X13.  A person whose trait is known gets, in the result of [main],
    weight 1 for the known value and weight 0 for the other one. *)
Theorem known_trait_certain (people : population) (normalized : accumulator)
    (k : name) (d : weights) (record : person) (t : bool) :
  main people = Some normalized → (k, d) ∈ normalized →
  dict_get people k = Some record → p_trait record = Some t →
  trait_weight d t == 1 ∧ trait_weight d (negb t) == 0.
Proof.
  intros Hmain Hin Hget Ht.
  destruct (main_Some people) as (out & Hmain' & Hall).
  rewrite Hmain in Hmain'. injection Hmain' as <-.
  apply list_elem_of_lookup in Hin as [i Hi].
  destruct (Forall2_lookup_r _ _ _ _ _ Hall Hi) as ([k0 d0] & Hi0 & Hk & Hd).
  simpl in *. subst k0. apply list_elem_of_lookup_2 in Hi0.
  assert (Hzero : trait_weight d0 (negb t) == 0).
  { revert Hi0. unfold accumulate.
    apply (fold_update_known_trait
             (λ c, joint_probability people c.1.1 c.1.2 c.2)).
    - intros [[og tg] ht] Hc. apply elem_of_enumerated in Hc as (_ & Hev & _).
      by apply (Hev k record t).
    - intros d1 (entry & [= _ ->] & _)%list_elem_of_fmap. by destruct t. }
  apply normalize_entry_Some in Hd as ((_ & _ & _ & HT & HF) & _ & Hsum).
  assert (Hother : trait_weight d (negb t) == 0).
  { destruct t; simpl in *; [rewrite HF, Hzero|rewrite HT, Hzero];
      unfold Qdiv; ring. }
  split; [|done]. destruct t; simpl in *; rewrite <- Hsum, Hother; ring.
Qed.

(** X14.  On a valid parent forest without evidence the accumulated weights
    are distributions already: [main] returns them unchanged by the
    normalization (exact arithmetic). *)
Theorem main_without_evidence (people : population) :
  valid_forest people → no_evidence people →
  ∃ normalized,
    main people = Some normalized ∧
    Forall2 (λ a b, a.1 = b.1 ∧ same_weights a.2 b.2)
            (accumulate people) normalized.
Proof.
  intros (Hkeyed & _ & Hacyc) Hno. apply normalize_fixed. intros n d Hin.
  destruct (proj2 (accumulate_entry_sums set_to_list people) n d Hin) as [Hg Ht].
  rewrite Hg, Ht.
  rewrite (total_joint_probability_config_sum set_to_list) by done.
  rewrite (config_sum_acyclic set_to_list set_to_list_perm) by done.
  split; reflexivity.
Qed.

(** ** The marginals of a person without parents *)

Local Abbreviation config_sum := (config_sum set_to_list).

Lemma enumerated_config_sum people (F : gset name → gset name → gset name → Q) :
  no_evidence people →
  sumQ (λ c, F c.1.1 c.1.2 c.2) (enumerated people)
  == config_sum F (names_of people).
Proof.
  intros Hno. unfold enumerated, config_sum, gene_sum.
  rewrite sumQ_flat_map. apply sumQ_ext. intros have_trait _.
  rewrite fails_evidence_no_evidence by done.
  rewrite sumQ_flat_map. apply sumQ_ext. intros one_gene _.
  rewrite sumQ_map. reflexivity.
Qed.

Lemma config_sum_scale (c : Q) (F : gset name → gset name → gset name → Q) N :
  config_sum (λ one_gene two_genes have_trait,
                c * F one_gene two_genes have_trait) N
  == c * config_sum F N.
Proof.
  unfold config_sum, gene_sum. rewrite <- sumQ_scale.
  apply sumQ_ext. intros have_trait _. rewrite <- sumQ_scale.
  apply sumQ_ext. intros one_gene _. by rewrite <- sumQ_scale.
Qed.

Lemma weighted_leaf_other φ r l1 l2 x px g t one_gene two_genes have_trait :
  keyed_by_name (l1 ++ (x, px) :: l2) → is_leaf (l1 ++ (x, px) :: l2) x →
  r ≠ x → x ∉ one_gene → x ∉ two_genes → x ∉ have_trait →
  weighted φ r (joint_probability (l1 ++ (x, px) :: l2))
    (with_one x g one_gene) (with_two x g two_genes) (with_trait x t have_trait)
  == weighted φ r (joint_probability (l1 ++ l2)) one_gene two_genes have_trait
     * leaf_factor px one_gene two_genes g t.
Proof.
  intros Hkeyed Hleaf Hr H1 H2 Ht. unfold weighted.
  rewrite get_genes_count_with, with_trait_other by done.
  rewrite joint_probability_leaf by done. ring.
Qed.

Lemma weighted_leaf_self φ l1 l2 x px g t one_gene two_genes have_trait :
  keyed_by_name (l1 ++ (x, px) :: l2) → is_leaf (l1 ++ (x, px) :: l2) x →
  p_mother px = None →
  x ∉ one_gene → x ∉ two_genes → x ∉ have_trait →
  weighted φ x (joint_probability (l1 ++ (x, px) :: l2))
    (with_one x g one_gene) (with_two x g two_genes) (with_trait x t have_trait)
  == φ g t * (PROBS.gene g * PROBS.trait g t)
     * joint_probability (l1 ++ l2) one_gene two_genes have_trait.
Proof.
  intros Hkeyed Hleaf Hroot H1 H2 Ht. unfold weighted.
  rewrite get_genes_count_self, with_trait_self by done.
  rewrite joint_probability_leaf by done.
  unfold leaf_factor. rewrite Hroot. ring.
Qed.

Lemma config_sum_weighted_other φ r l1 l2 x px :
  keyed_by_name (l1 ++ (x, px) :: l2) → is_leaf (l1 ++ (x, px) :: l2) x →
  r ≠ x →
  config_sum (weighted φ r (joint_probability (l1 ++ (x, px) :: l2)))
             (names_of (l1 ++ (x, px) :: l2))
  == config_sum (weighted φ r (joint_probability (l1 ++ l2)))
                (names_of (l1 ++ l2)).
Proof.
  intros Hkeyed Hleaf Hr.
  pose proof (names_of_middle_fresh l1 l2 x px (proj1 Hkeyed)) as Hx.
  rewrite names_of_middle, config_sum_insert by done.
  apply config_sum_ext; [done|]. intros one_gene two_genes have_trait H1 H2 Ht.
  assert (x ∉ one_gene) by set_solver.
  assert (x ∉ two_genes) by set_solver.
  assert (x ∉ have_trait) by set_solver.
  pose proof (λ g t, weighted_leaf_other φ r l1 l2 x px g t
                one_gene two_genes have_trait Hkeyed Hleaf Hr) as Hw.
  rewrite (Hw G1 true), (Hw G2 true), (Hw G0 true),
          (Hw G1 false), (Hw G2 false), (Hw G0 false) by done.
  rewrite <- (Qmult_1_r (weighted φ r (joint_probability (l1 ++ l2))
                                  one_gene two_genes have_trait)) at 7.
  rewrite <- (leaf_factor_total px one_gene two_genes). ring.
Qed.

Lemma config_sum_weighted_self φ l1 l2 x px :
  keyed_by_name (l1 ++ (x, px) :: l2) → is_leaf (l1 ++ (x, px) :: l2) x →
  p_mother px = None →
  config_sum (weighted φ x (joint_probability (l1 ++ (x, px) :: l2)))
             (names_of (l1 ++ (x, px) :: l2))
  == prior_mean φ
     * config_sum (joint_probability (l1 ++ l2)) (names_of (l1 ++ l2)).
Proof.
  intros Hkeyed Hleaf Hroot.
  pose proof (names_of_middle_fresh l1 l2 x px (proj1 Hkeyed)) as Hx.
  rewrite names_of_middle, config_sum_insert by done.
  rewrite <- config_sum_scale.
  apply config_sum_ext; [done|]. intros one_gene two_genes have_trait H1 H2 Ht.
  assert (x ∉ one_gene) by set_solver.
  assert (x ∉ two_genes) by set_solver.
  assert (x ∉ have_trait) by set_solver.
  pose proof (λ g t, weighted_leaf_self φ l1 l2 x px g t
                one_gene two_genes have_trait Hkeyed Hleaf Hroot) as Hw.
  rewrite (Hw G1 true), (Hw G2 true), (Hw G0 true),
          (Hw G1 false), (Hw G2 false), (Hw G0 false) by done.
  unfold prior_mean. ring.
Qed.

Lemma config_sum_weighted_root φ r pr people :
  keyed_by_name people → acyclic people →
  (r, pr) ∈ people → p_mother pr = None →
  config_sum (weighted φ r (joint_probability people)) (names_of people)
  == prior_mean φ.
Proof.
  remember (length people) as n eqn:Hn. revert people Hn.
  induction n as [|n IH]; intros people Hn Hkeyed Hacyc Hin Hroot.
  - destruct people; [by apply elem_of_nil in Hin|done].
  - destruct (exists_leaf people Hkeyed Hacyc) as (l1 & x & px & l2 & -> & Hleaf).
    { by destruct people. }
    destruct (decide (r = x)) as [->|Hne].
    + assert (px = pr) as ->.
      { pose proof (dict_get_elem_of _ x pr (proj1 Hkeyed) Hin) as Hpr.
        rewrite (dict_get_elem_of _ x px (proj1 Hkeyed)) in Hpr; [congruence|].
        rewrite elem_of_app, elem_of_cons. tauto. }
      rewrite config_sum_weighted_self by done.
      rewrite (config_sum_acyclic set_to_list set_to_list_perm).
      * ring.
      * by eapply keyed_by_name_remove.
      * by eapply acyclic_remove.
    + rewrite config_sum_weighted_other by done.
      apply IH.
      * rewrite length_app in *. simpl in Hn. lia.
      * by eapply keyed_by_name_remove.
      * by eapply acyclic_remove.
      * rewrite elem_of_app, elem_of_cons in *.
        destruct Hin as [?|[[= ? ?]|?]]; [tauto|congruence|tauto].
      * done.
Qed.

Lemma accumulate_slots people n d g t :
  (n, d) ∈ accumulate people →
  gene_weight d g
    == sumQ (λ c, weighted (λ g' _, indicator (g' = g)) n
                    (joint_probability people) c.1.1 c.1.2 c.2)
            (enumerated people) ∧
  trait_weight d t
    == sumQ (λ c, weighted (λ _ t', indicator (t' = t)) n
                    (joint_probability people) c.1.1 c.1.2 c.2)
            (enumerated people).
Proof.
  intros Hin. unfold accumulate in Hin.
  apply (fold_update_slots (λ c, joint_probability people c.1.1 c.1.2 c.2)
           _ g t _ (λ _, 0) (λ _, 0)) in Hin.
  - destruct Hin as [Hg Ht]. rewrite Hg, Ht. unfold weighted. split; ring.
  - clear. intros n d (entry & [= -> ->] & _)%list_elem_of_fmap.
    by destruct g, t.
Qed.

(** X15.  On a valid parent forest without evidence, a person without
    parents gets from [main] the gene distribution [PROBS["gene"]] itself,
    and the trait distribution that [PROBS["gene"]] and [PROBS["trait"]]
    give a person on its own: what is assumed about the descendants does
    not change it (exact arithmetic). *)
Theorem parentless_marginals (people : population) (normalized : accumulator)
    (r : name) (pr : person) (d : weights) :
  valid_forest people → no_evidence people →
  (r, pr) ∈ people → p_mother pr = None →
  main people = Some normalized → (r, d) ∈ normalized →
  (∀ g, gene_weight d g == PROBS.gene g) ∧
  (∀ t, trait_weight d t
        == PROBS.gene G2 * PROBS.trait G2 t + PROBS.gene G1 * PROBS.trait G1 t
           + PROBS.gene G0 * PROBS.trait G0 t).
Proof.
  intros (Hkeyed & _ & Hacyc) Hno Hin Hroot Hmain Hd.
  destruct (normalize_fixed (accumulate people)) as (out & Hout & Hall).
  { intros n0 d0 Hin0.
    destruct (proj2 (accumulate_entry_sums set_to_list people) n0 d0 Hin0)
      as [Hg Ht].
    rewrite Hg, Ht, (total_joint_probability_config_sum set_to_list) by done.
    rewrite (config_sum_acyclic set_to_list set_to_list_perm) by done.
    split; reflexivity. }
  unfold main in Hmain. rewrite Hout in Hmain. injection Hmain as ->.
  apply list_elem_of_lookup in Hd as [i Hi].
  destruct (Forall2_lookup_r _ _ _ _ _ Hall Hi)
    as ([r0 d0] & Hi0 & Hr & H2 & H1 & H0 & HT & HF).
  simpl in *. subst r0. apply list_elem_of_lookup_2 in Hi0.
  split.
  - intros g.
    transitivity (gene_weight d0 g); [by destruct g|].
    rewrite (proj1 (accumulate_slots people r d0 g true Hi0)).
    rewrite (enumerated_config_sum people
               (weighted (λ g' _, indicator (g' = g)) r (joint_probability people)))
      by done.
    rewrite (config_sum_weighted_root _ r pr) by done.
    unfold prior_mean, indicator. destruct g; simpl; ring.
  - intros t.
    transitivity (trait_weight d0 t); [by destruct t|].
    rewrite (proj2 (accumulate_slots people r d0 G0 t Hi0)).
    rewrite (enumerated_config_sum people
               (weighted (λ _ t', indicator (t' = t)) r (joint_probability people)))
      by done.
    rewrite (config_sum_weighted_root _ r pr) by done.
    unfold prior_mean, indicator. destruct t; simpl; ring.
Qed.

(** X16.  Whatever the evidence, every weight [main] returns is a ratio
    of two sums over the enumerated triples: the joint probabilities of the
    triples that give the person that gene count (or that trait value), over
    the joint probabilities of all of them. *)
Theorem main_marginals (people : population) (normalized : accumulator)
    (k : name) (d : weights) :
  main people = Some normalized → (k, d) ∈ normalized →
  (∀ g, gene_weight d g
        == sumQ (λ c, indicator (get_genes_count k c.1.1 c.1.2 = g)
                      * joint_probability people c.1.1 c.1.2 c.2)
                (enumerated people)
           / total_joint_probability people) ∧
  (∀ t, trait_weight d t
        == sumQ (λ c, indicator (bool_decide (k ∈ c.2) = t)
                      * joint_probability people c.1.1 c.1.2 c.2)
                (enumerated people)
           / total_joint_probability people).
Proof.
  intros Hmain Hin. apply normalize_Some_inv in Hmain.
  apply list_elem_of_lookup in Hin as [i Hi].
  destruct (Forall2_lookup_r _ _ _ _ _ Hmain Hi) as ([k0 d0] & Hi0 & Hk & Hd).
  simpl in *. subst k0. apply list_elem_of_lookup_2 in Hi0.
  apply normalize_entry_Some in Hd as ((H2 & H1 & H0 & HT & HF) & _).
  destruct (proj2 (accumulate_entry_sums set_to_list people) k d0 Hi0)
    as [Hg Ht].
  rewrite Hg in H2, H1, H0. rewrite Ht in HT, HF.
  split.
  - intros g.
    rewrite <- (proj1 (accumulate_slots people k d0 g true Hi0)).
    by destruct g.
  - intros t.
    rewrite <- (proj2 (accumulate_slots people k d0 G0 t Hi0)).
    by destruct t.
Qed.

End Inference.

(** ** Records with one parent *)

(** X17.  [joint_probability] looks at the father only when there is a
    mother: the father of a record without mother changes nothing, and a
    record with a mother but no father is treated like one whose father is
    in neither set, that is, has no copy of the gene. *)
Theorem joint_probability_one_parent (l1 l2 : population) (k n : name)
    (mother : name) (father : option name) (absent : name) (t : option bool)
    (one_gene two_genes have_trait : gset name) :
  absent ∉ one_gene → absent ∉ two_genes →
  joint_probability (l1 ++ (k, Person n None father t) :: l2)
                    one_gene two_genes have_trait
  = joint_probability (l1 ++ (k, Person n None None t) :: l2)
                      one_gene two_genes have_trait ∧
  joint_probability (l1 ++ (k, Person n (Some mother) None t) :: l2)
                    one_gene two_genes have_trait
  = joint_probability (l1 ++ (k, Person n (Some mother) (Some absent) t) :: l2)
                      one_gene two_genes have_trait.
Proof.
  intros H1 H2. unfold joint_probability. rewrite !fold_left_app. simpl.
  split; [done|]. f_equal. unfold joint_step. simpl.
  assert (get_genes_count absent one_gene two_genes = G0) as ->; [|done].
  unfold get_genes_count. by rewrite !bool_decide_eq_false_2.
Qed.

Lemma main_entry (set_to_list : gset name → list name) (people : population)
    (normalized : accumulator) (k : name) :
  main set_to_list people = Some normalized → k ∈ map fst people →
  ∃ d, (k, d) ∈ normalized.
Proof.
  intros Hmain%normalize_Some_inv Hk.
  apply (Forall2_same_keys (λ a b, normalize_entry a = Some b)) in Hmain.
  rewrite (proj1 (accumulate_entry_sums set_to_list people)) in Hmain.
  rewrite Hmain in Hk. apply list_elem_of_fmap in Hk as ([k' d] & -> & Hin).
  by exists d.
Qed.

(** ** The further properties on the concrete populations *)

Example load_data_family0 :
  load_data [ Row "Harry" "Lily" "James" "";
              Row "James" "" "" "1";
              Row "Lily" "" "" "0" ] = family0.
Proof. reflexivity. Qed.

Lemma joint_probability_order_witness :
  joint_probability family {["Harry"]} {["James"]} {["James"]}
  == joint_probability
       [ ("James", Person "James" None None None);
         ("Harry", Person "Harry" (Some "Lily") (Some "James") None);
         ("Lily", Person "Lily" None None None) ]
       {["Harry"]} {["James"]} {["James"]}.
Proof. apply joint_probability_order. apply perm_swap. Defined.

Lemma normalize_twice_witness :
  ∃ normalized again,
    normalize [("A", Weights (GeneWeights 1 2 1) (TraitWeights 3 1))]
    = Some normalized ∧
    normalize normalized = Some again ∧
    Forall2 (λ a b, a.1 = b.1 ∧ same_weights a.2 b.2) normalized again.
Proof.
  destruct (normalize [("A", Weights (GeneWeights 1 2 1) (TraitWeights 3 1))])
    as [normalized|] eqn:Hnorm; [|vm_compute in Hnorm; discriminate].
  destruct (normalize_twice _ _ Hnorm) as (again & Hagain & Hsame).
  exists normalized, again. split; [reflexivity|]. split; [exact Hagain|exact Hsame].
Defined.

Lemma powerset_all_subsets_witness :
  NoDup (powerset elements {["a"; "b"]}) ∧
  (∀ T, T ∈ powerset elements {["a"; "b"]} ↔ T ⊆ {["a"; "b"]}) ∧
  length (powerset elements {["a"; "b"]}) = (2 ^ size ({["a"; "b"]} : gset name))%nat.
Proof. apply (powerset_all_subsets elements). intros s. reflexivity. Defined.

Lemma enumerated_exactly_witness :
  NoDup (enumerated elements family0) ∧
  ∀ one_gene two_genes have_trait,
    (one_gene, two_genes, have_trait) ∈ enumerated elements family0 ↔
    have_trait ⊆ names_of family0 ∧ respects_evidence family0 have_trait ∧
    one_gene ⊆ names_of family0 ∧ two_genes ⊆ names_of family0 ∧
    one_gene ## two_genes.
Proof. apply (enumerated_exactly elements). intros s. reflexivity. Defined.


Lemma known_trait_certain_witness :
  ∃ normalized d,
    main elements family0 = Some normalized ∧ ("James", d) ∈ normalized ∧
    trait_weight d true == 1 ∧ trait_weight d (negb true) == 0.
Proof.
  destruct (main_Some elements (λ s, Permutation_refl (elements s)) family0)
    as (normalized & Hmain & _).
  destruct (main_entry elements family0 normalized "James" Hmain) as [d Hin].
  { apply list_elem_of_further, list_elem_of_here. }
  exists normalized, d.
  split; [exact Hmain|]. split; [exact Hin|].
  apply (known_trait_certain elements (λ s, Permutation_refl (elements s)) family0 normalized
           "James" d (Person "James" None None (Some true)) true);
    [exact Hmain|exact Hin|reflexivity|reflexivity].
Defined.

Lemma main_without_evidence_witness :
  ∃ normalized,
    main elements family = Some normalized ∧
    Forall2 (λ a b, a.1 = b.1 ∧ same_weights a.2 b.2)
            (accumulate elements family) normalized.
Proof.
  apply (main_without_evidence elements).
  - intros s. reflexivity.
  - exact family_valid.
  - exact family_no_evidence.
Defined.

Lemma parentless_marginals_witness :
  ∃ normalized d,
    main elements family = Some normalized ∧ ("James", d) ∈ normalized ∧
    (∀ g, gene_weight d g == PROBS.gene g) ∧
    (∀ t, trait_weight d t
          == PROBS.gene G2 * PROBS.trait G2 t + PROBS.gene G1 * PROBS.trait G1 t
             + PROBS.gene G0 * PROBS.trait G0 t).
Proof.
  destruct (main_Some elements (λ s, Permutation_refl (elements s)) family)
    as (normalized & Hmain & _).
  destruct (main_entry elements family normalized "James" Hmain) as [d Hin].
  { apply list_elem_of_further, list_elem_of_here. }
  exists normalized, d.
  split; [exact Hmain|]. split; [exact Hin|].
  apply (parentless_marginals elements (λ s, Permutation_refl (elements s)) family normalized
           "James" (Person "James" None None None) d);
    [exact family_valid|exact family_no_evidence| |reflexivity|exact Hmain|exact Hin].
  apply list_elem_of_further, list_elem_of_here.
Defined.

Lemma main_marginals_witness :
  ∃ normalized d,
    main elements family0 = Some normalized ∧ ("Harry", d) ∈ normalized ∧
    (∀ g, gene_weight d g
          == sumQ (λ c, indicator (get_genes_count "Harry" c.1.1 c.1.2 = g)
                        * joint_probability family0 c.1.1 c.1.2 c.2)
                  (enumerated elements family0)
             / total_joint_probability elements family0) ∧
    (∀ t, trait_weight d t
          == sumQ (λ c, indicator (bool_decide ("Harry" ∈ c.2) = t)
                        * joint_probability family0 c.1.1 c.1.2 c.2)
                  (enumerated elements family0)
             / total_joint_probability elements family0).
Proof.
  destruct (main_Some elements (λ s, Permutation_refl (elements s)) family0)
    as (normalized & Hmain & _).
  destruct (main_entry elements family0 normalized "Harry" Hmain) as [d Hin].
  { apply list_elem_of_here. }
  exists normalized, d.
  split; [exact Hmain|]. split; [exact Hin|].
  apply (main_marginals elements family0 normalized "Harry" d);
    [exact Hmain|exact Hin].
Defined.

Lemma joint_probability_one_parent_witness :
  joint_probability [("Harry", Person "Harry" None (Some "James") None)]
                    {["Harry"]} {["James"]} ∅
  = joint_probability [("Harry", Person "Harry" None None None)]
                      {["Harry"]} {["James"]} ∅ ∧
  joint_probability [("Harry", Person "Harry" (Some "Lily") None None)]
                    {["Harry"]} {["James"]} ∅
  = joint_probability [("Harry", Person "Harry" (Some "Lily") (Some "Nobody") None)]
                      {["Harry"]} {["James"]} ∅.
Proof.
  apply (joint_probability_one_parent [] [] "Harry" "Harry" "Lily"
           (Some "James") "Nobody" None {["Harry"]} {["James"]} ∅).
  - intros [=]%elem_of_singleton.
  - intros [=]%elem_of_singleton.
Defined.
